(** * SustTech site: contact endpoint (api/contact.js) and page translation
      (assets/i18n/i18n.js)

    A shallow embedding of the request gate, the abuse tracker, the mail
    composer and the language detection, followed by the properties the
    specification states about them.

    Conventions of the embedding.
    - A JavaScript string is the list of its UTF-16 code units ([jsstring]);
      [lit] turns an ASCII literal of the source into one.
    - [undefined] (an absent property, an unset environment variable, a
      missing header) is [None]; the fields of the JSON body are strings.
    - [Date.now()] reads a clock oracle: the n-th call made by the process
      returns [clock n].
    - The outside world of one invocation (environment variables, the
      Turnstile service, the SMTP relay) is the record [Ext]; what the handler
      asks of it is logged in the [trace] of the process state. *)

From stdpp Require Import base numbers list strings gmap.

Local Open Scope Z_scope.

(** ** JavaScript strings *)

Abbreviation jsstring := (list N).

Definition lit (s : string) : jsstring :=
  Ascii.N_of_ascii <$> String.list_ascii_of_string s.

(** WhiteSpace and LineTerminator code points of ECMAScript: what
    [String.prototype.trim] strips and what [\s] matches. *)
Definition isWhiteSpace (c : N) : bool :=
  ((9 <=? c) && (c <=? 13) || (c =? 32) || (c =? 160) || (c =? 5760)
   || (8192 <=? c) && (c <=? 8202) || (c =? 8232) || (c =? 8233)
   || (c =? 8239) || (c =? 8287) || (c =? 12288) || (c =? 65279))%N.

Fixpoint trimStart (s : jsstring) : jsstring :=
  match s with
  | c :: r => if isWhiteSpace c then trimStart r else s
  | [] => []
  end.

Definition trimEnd (s : jsstring) : jsstring := rev (trimStart (rev s)).

Definition trim (s : jsstring) : jsstring := trimEnd (trimStart s).

(** [s.slice(0, n)] *)
Definition slice0 (n : nat) (s : jsstring) : jsstring := take n s.

(** [toLowerCase] on the Basic Latin and Latin-1 ranges (A-Z, and U+00C0 to
    U+00DE without the multiplication sign); code units above U+00FF are
    left as they are, the Unicode case tables are not part of this
    development. HTTP header values are Latin-1, so the content-type test
    is exact. *)
Definition lowerUnit (c : N) : N :=
  (if (65 <=? c) && (c <=? 90) then c + 32
   else if (192 <=? c) && (c <=? 222) && negb (c =? 215) then c + 32
   else c)%N.

Definition toLowerCase (s : jsstring) : jsstring := lowerUnit <$> s.

Fixpoint startsWith (p s : jsstring) : bool :=
  match p, s with
  | [], _ => true
  | a :: p', b :: s' => (a =? b)%N && startsWith p' s'
  | _ :: _, [] => false
  end.

(** [s.includes(p)] *)
Fixpoint includes (s p : jsstring) : bool :=
  startsWith p s ||
  match s with
  | [] => false
  | _ :: r => includes r p
  end.

(** [s.split(sep)] for a one-character separator *)
Fixpoint split (sep : N) (s : jsstring) : list jsstring :=
  match s with
  | [] => [[]]
  | c :: r =>
      if (c =? sep)%N then [] :: split sep r
      else match split sep r with
           | p :: ps => (c :: p) :: ps
           | [] => [[c]]
           end
  end.

(** [s.replace(/c/g, by)] for a one-character pattern *)
Definition replaceAll (c : N) (by_ : jsstring) (s : jsstring) : jsstring :=
  s ≫= (λ u, if (u =? c)%N then by_ else [u]).

(** [lines.join("\n")] *)
Fixpoint joinLines (ls : list jsstring) : jsstring :=
  match ls with
  | [] => []
  | [l] => l
  | l :: rest => l ++ 10%N :: joinLines rest
  end.

(** Truthiness of a value that is a string or [undefined], and [a || b]. *)
Definition truthy (v : option jsstring) : bool :=
  match v with
  | Some (_ :: _) => true
  | _ => false
  end.

Definition jsor (a b : option jsstring) : option jsstring :=
  if truthy a then a else b.

(** [a || "literal"] *)
Definition orLit (a : option jsstring) (d : jsstring) : jsstring :=
  if truthy a then default [] a else d.

(** ** Regular expressions

    The patterns of the source are kept as data and run by a derivative
    matcher. A character class is a predicate on code units. *)

Inductive regex :=
| RNone
| REps
| RClass (p : N → bool)
| RCat (r1 r2 : regex)
| RAlt (r1 r2 : regex)
| RStar (r : regex).

Fixpoint nullable (r : regex) : bool :=
  match r with
  | RNone => false
  | REps => true
  | RClass _ => false
  | RCat r1 r2 => nullable r1 && nullable r2
  | RAlt r1 r2 => nullable r1 || nullable r2
  | RStar _ => true
  end.

Definition cat (r1 r2 : regex) : regex :=
  match r1, r2 with
  | RNone, _ => RNone
  | _, RNone => RNone
  | REps, _ => r2
  | _, _ => RCat r1 r2
  end.

Definition alt (r1 r2 : regex) : regex :=
  match r1, r2 with
  | RNone, _ => r2
  | _, RNone => r1
  | _, _ => RAlt r1 r2
  end.

Fixpoint deriv (c : N) (r : regex) : regex :=
  match r with
  | RNone | REps => RNone
  | RClass p => if p c then REps else RNone
  | RCat r1 r2 =>
      alt (cat (deriv c r1) r2) (if nullable r1 then deriv c r2 else RNone)
  | RAlt r1 r2 => alt (deriv c r1) (deriv c r2)
  | RStar r1 => cat (deriv c r1) (RStar r1)
  end.

(** The whole string matches: the pattern between [^] and [$]. *)
Fixpoint matches (r : regex) (s : jsstring) : bool :=
  match s with
  | [] => nullable r
  | c :: s' => matches (deriv c r) s'
  end.

Definition RPlus (r : regex) : regex := RCat r (RStar r).
Definition ROpt (r : regex) : regex := RAlt r REps.

(** [r{n,}] *)
Fixpoint RAtLeast (n : nat) (r : regex) : regex :=
  match n with
  | O => RStar r
  | S n' => RCat r (RAtLeast n' r)
  end.

Fixpoint RSeq (rs : list regex) : regex :=
  match rs with
  | [] => REps
  | [r] => r
  | r :: rest => RCat r (RSeq rest)
  end.

Definition RAny : regex := RClass (λ _, true).

(** [re.test(s)] for a pattern without anchors: some substring matches. *)
Definition test (r : regex) (s : jsstring) : bool :=
  matches (RCat (RStar RAny) (RCat r (RStar RAny))) s.

(** Character classes *)
Definition isUpper (c : N) : bool := ((65 <=? c) && (c <=? 90))%N.
Definition isLower (c : N) : bool := ((97 <=? c) && (c <=? 122))%N.
Definition isDigit (c : N) : bool := ((48 <=? c) && (c <=? 57))%N.
(** [[a-z]] under the [i] flag: an ASCII letter of either case (without the
    [u] flag no code unit above U+007F folds onto an ASCII letter). *)
Definition isLetter (c : N) : bool := isUpper c || isLower c.
Definition foldUnit (c : N) : N := if isUpper c then (c + 32)%N else c.
Definition isVowel (c : N) : bool :=
  bool_decide (foldUnit c ∈ lit "aeiou").
Definition isConsonant (c : N) : bool :=
  bool_decide (foldUnit c ∈ lit "bcdfghjklmnpqrstvwxyz").
Definition isBase64 (c : N) : bool :=
  isUpper c || isLower c || isDigit c
  || (c =? 43)%N || (c =? 47)%N || (c =? 61)%N.
Definition notSpaceAt (c : N) : bool :=
  negb (isWhiteSpace c) && negb (c =? 64)%N.
Definition isChar (a : N) (c : N) : bool := (c =? a)%N.

(** Length of the longest prefix of [s] that matches [r]. The only pattern
    run through it, [urlRe], matches at most one prefix at any position, so
    the greedy choices of the engine play no role. *)
Fixpoint matchAt (r : regex) (s : jsstring) : option nat :=
  match s with
  | [] => if nullable r then Some O else None
  | c :: s' =>
      match matchAt (deriv c r) s' with
      | Some n => Some (S n)
      | None => if nullable r then Some O else None
      end
  end.

(** [(s.match(re) || []).length] for a global pattern that does not match
    the empty string: matches are taken left to right, the search resuming
    after each match. [skip] is what is left of the current match. *)
Fixpoint countMatches (r : regex) (skip : nat) (s : jsstring) : nat :=
  match s with
  | [] => O
  | _ :: s' =>
      match skip with
      | S k => countMatches r k s'
      | O =>
          match matchAt r s with
          | Some (S n) => S (countMatches r n s')
          | _ => countMatches r O s'
          end
      end
  end.

(** ** Field guards (api/contact.js) *)

Definition MAX_MESSAGE_LEN : nat := 5000.
Definition MAX_NAME_LEN : nat := 120.
Definition MAX_ORG_LEN : nat := 200.
Definition MAX_INTEREST_LEN : nat := 80.

(** [/^[^\s@]+@[^\s@]+\.[^\s@]+$/] *)
Definition emailRegex : regex :=
  RSeq [RPlus (RClass notSpaceAt); RClass (isChar 64);
        RPlus (RClass notSpaceAt); RClass (isChar 46);
        RPlus (RClass notSpaceAt)].

(** [/\S+\s+\S+/] *)
Definition twoWordsRe : regex :=
  RSeq [RPlus (RClass (λ c, negb (isWhiteSpace c)));
        RPlus (RClass isWhiteSpace);
        RPlus (RClass (λ c, negb (isWhiteSpace c)))].

Definition hasTwoWords (s : jsstring) : bool := test twoWordsRe s.

(** [/https?:\/\//gi] *)
Definition ci (a : N) : regex := RClass (λ c, (foldUnit c =? a)%N).
Definition urlRe : regex :=
  RSeq [ci 104; ci 116; ci 116; ci 112; ROpt (ci 115);
        RClass (isChar 58); RClass (isChar 47); RClass (isChar 47)].

Definition tooManyUrls (s : jsstring) : bool :=
  bool_decide (2 < countMatches urlRe O s)%nat.

(** [/[bcdfghjklmnpqrstvwxyz]{6,}/i] and [/^[A-Za-z0-9+/=]{20,}$/] *)
Definition consonantRunRe : regex := RAtLeast 6 (RClass isConsonant).
Definition base64Re : regex := RAtLeast 20 (RClass isBase64).

(** [ratio = vow / t.length] is the double nearest to a quotient of two
    integers, and the thresholds are the doubles nearest to 0.15 and 0.7.
    Rounding is monotone, and below 2^40 letters a quotient that is not the
    threshold itself lies further from it than the rounding error, so
    [ratio < 0.15] holds exactly when [20 * vow < 3 * t.length] and
    [ratio > 0.7] exactly when [10 * vow > 7 * t.length] (the handler only
    passes fields already cut to at most 5000 code units). The comparisons
    are on integers here. *)
Definition looksGibberish (s : jsstring) : bool :=
  let t := filter (λ c, isLetter c) s in
  match t with
  | [] => true
  | _ =>
      let vow := length (filter (λ c, isVowel c) t) in
      if bool_decide (20 * vow < 3 * length t)%nat
         || bool_decide (7 * length t < 10 * vow)%nat then true
      else if test consonantRunRe t then true
      else if matches base64Re s then true
      else false
  end.

Definition escapeHtml (s : jsstring) : jsstring :=
  replaceAll 34 (lit "&quot;")
    (replaceAll 62 (lit "&gt;")
       (replaceAll 60 (lit "&lt;")
          (replaceAll 38 (lit "&amp;") s))).

(** ** Active language (assets/i18n/i18n.js) *)

Definition DEFAULT_LANG : jsstring := lit "en".
Definition LANGS : list jsstring := [lit "en"; lit "es"; lit "pt"].

(** What [detectLang] reads from the page: [window.__FORCED_LANG__],
    [location.pathname] and [localStorage.getItem('lang')]. *)
Record Page := {
  forced : option jsstring;
  pathname : jsstring;
  saved : option jsstring
}.

(** [LANGS.includes(v)] for a value that may be [undefined] or [null] *)
Definition langsInclude (v : option jsstring) : bool :=
  match v with
  | Some l => bool_decide (l ∈ LANGS)
  | None => false
  end.

Definition pathLang (p : Page) : option jsstring :=
  head (filter (λ seg, seg ≠ []) (split 47 (pathname p))).

Definition detectLang (p : Page) : jsstring :=
  if truthy (forced p) && langsInclude (forced p) then default [] (forced p)
  else if langsInclude (pathLang p) then default [] (pathLang p)
  else if langsInclude (saved p) then default [] (saved p)
  else DEFAULT_LANG.

(** ** Requests, responses and the outside world *)

Record Request := {
  method : jsstring;
  headers : gmap string jsstring;          (* req.headers *)
  remoteAddress : option jsstring;         (* req.socket?.remoteAddress *)
  body : option (gmap string jsstring)     (* req.body *)
}.

(** [res.status(status).json({ ok, error })] *)
Record Response := {
  status : Z;
  ok : bool;
  error : option jsstring
}.

Definition json (st : Z) (o : bool) (e : option jsstring) : Response :=
  {| status := st; ok := o; error := e |}.

Definition reject (st : Z) (e : string) : Response :=
  json st false (Some (lit e)).

(** The options given to [nodemailer.createTransport]; the port is kept as
    the text that [Number] converts, the TLS and timeout options are
    constants of the source. *)
Record Transport := {
  host : jsstring;
  port : jsstring;
  secure : bool;
  user : jsstring;
  pass : jsstring
}.

Record Mail := {
  from : jsstring;
  to : jsstring;
  replyTo : jsstring;
  subject : jsstring;
  text : jsstring;
  html : jsstring
}.

(** The answer of the Turnstile service: [fetch] or [verifyRes.json()]
    throws (with the message of the exception), or the reply is read and
    [data.success] is truthy or not. *)
Inductive TurnstileReply :=
| Threw (message : jsstring)
| Replied (success : bool).

(** The outside world during one invocation. [siteverify] takes the three
    form parameters (secret, response, remoteip). [smtpVerify] and
    [smtpSend] answer [None] when the call succeeds and otherwise the text
    the source renders from the exception after the prefix of its error
    message. *)
Record Ext := {
  env : gmap string jsstring;              (* process.env *)
  siteverify : jsstring → jsstring → jsstring → TurnstileReply;
  smtpVerify : Transport → option jsstring;
  smtpSend : Transport → Mail → option jsstring
}.

(** What the handler does to the outside world, in order. *)
Inductive Event :=
| EvSiteverify (secret token remoteip : jsstring)
| EvConsoleError (what : string)
| EvSmtpVerify (t : Transport)
| EvSendMail (t : Transport) (m : Mail).

(** ** Process state *)

Record Hit := { hit_ip : jsstring; hit_time : Z }.

Record World := {
  hits : list Hit;                         (* let hits = [] *)
  blocked : gmap jsstring Z;               (* let blocked = new Map() *)
  badHits : list Hit;                      (* let badHits = [] *)
  tick : nat;                              (* calls of Date.now() so far *)
  trace : list Event
}.

Definition init : World :=
  {| hits := []; blocked := ∅; badHits := []; tick := O; trace := [] |}.

Definition set_hits (f : list Hit → list Hit) (w : World) : World :=
  {| hits := f (hits w); blocked := blocked w; badHits := badHits w;
     tick := tick w; trace := trace w |}.
Definition set_blocked (f : gmap jsstring Z → gmap jsstring Z) (w : World) : World :=
  {| hits := hits w; blocked := f (blocked w); badHits := badHits w;
     tick := tick w; trace := trace w |}.
Definition set_badHits (f : list Hit → list Hit) (w : World) : World :=
  {| hits := hits w; blocked := blocked w; badHits := f (badHits w);
     tick := tick w; trace := trace w |}.
Definition set_tick (f : nat → nat) (w : World) : World :=
  {| hits := hits w; blocked := blocked w; badHits := badHits w;
     tick := f (tick w); trace := trace w |}.
Definition set_trace (f : list Event → list Event) (w : World) : World :=
  {| hits := hits w; blocked := blocked w; badHits := badHits w;
     tick := tick w; trace := f (trace w) |}.

(** State passing *)
Definition M (A : Type) : Type := World → A * World.

Definition ret {A} (a : A) : M A := λ w, (a, w).
Definition bind {A B} (m : M A) (k : A → M B) : M B :=
  λ w, let '(a, w') := m w in k a w'.
Definition gets {A} (f : World → A) : M A := λ w, (f w, w).
Definition modify (f : World → World) : M unit := λ w, (tt, f w).
Definition emit (e : Event) : M unit := modify (set_trace (λ t, t ++ [e])).

Notation "x <- m ;; k" := (bind m (λ x, k))
  (at level 100, m at next level, right associativity).
Notation "m ;; k" := (bind m (λ _, k))
  (at level 100, right associativity).

Definition WINDOW_MS : Z := 60 * 1000.
Definition MAX_PER_WINDOW : nat := 5.
Definition BLOCK_MS : Z := 60 * 60 * 1000.
Definition BAD_WINDOW_MS : Z := 10 * 60 * 1000.
Definition BAD_LIMIT : nat := 8.

Definition countFor (ip : jsstring) (hs : list Hit) : nat :=
  length (filter (λ h, hit_ip h = ip) hs).

Section Process.

Variable clock : nat → Z.

Definition Date_now : M Z :=
  λ w, (clock (tick w), set_tick S w).

(** *** Rate limit *)

Definition rateLimited (ip : jsstring) : M bool :=
  now <- Date_now ;;
  modify (set_hits (filter (λ h, now - hit_time h < WINDOW_MS))) ;;
  count <- gets (λ w, countFor ip (hits w)) ;;
  if bool_decide (MAX_PER_WINDOW ≤ count)%nat then ret true
  else
    modify (set_hits (λ hs, hs ++ [{| hit_ip := ip; hit_time := now |}])) ;;
    ret false.

(** *** Denylist with TTL. [until && ...] reads the clock only when the
    stored expiry is truthy (present and not 0). *)

Definition isBlocked (ip : jsstring) : M bool :=
  until <- gets (λ w, blocked w !! ip) ;;
  match until with
  | Some u =>
      if bool_decide (u ≠ 0) then
        t1 <- Date_now ;;
        if bool_decide (t1 < u) then ret true
        else
          t2 <- Date_now ;;
          (if bool_decide (u ≤ t2) then modify (set_blocked (delete ip))
           else ret tt) ;;
          ret false
      else ret false
  | None => ret false
  end.

Definition punish (ip : jsstring) (ms : Z) : M unit :=
  t <- Date_now ;;
  modify (set_blocked (<[ip := t + ms]>)).

Definition markBad (ip : jsstring) : M unit :=
  now <- Date_now ;;
  modify (set_badHits (λ hs, hs ++ [{| hit_ip := ip; hit_time := now |}])) ;;
  modify (set_badHits (filter (λ h, now - hit_time h < BAD_WINDOW_MS))) ;;
  count <- gets (λ w, countFor ip (badHits w)) ;;
  if bool_decide (BAD_LIMIT ≤ count)%nat then punish ip BLOCK_MS
  else ret tt.

(** *** Normalised inputs and the mail *)

(** [a || b] on strings, and the test [!s] *)
Definition or_ (a b : jsstring) : jsstring :=
  match a with
  | [] => b
  | _ => a
  end.

Definition isEmpty (s : jsstring) : bool :=
  match s with
  | [] => true
  | _ => false
  end.

(** A property of the body with its default [""] *)
Definition field (b : gmap string jsstring) (k : string) : jsstring :=
  default [] (b !! k).

(** [const clean = s => String(s || "").trim()] *)
Definition clean (s : jsstring) : jsstring := trim (or_ s []).

Record Fields := {
  vName : jsstring;
  vEmail : jsstring;
  vOrg : jsstring;
  vInterest : jsstring;
  vMessage : jsstring
}.

Definition normalize (b : gmap string jsstring) : Fields :=
  {| vName := slice0 MAX_NAME_LEN (clean (field b "name"));
     vEmail := toLowerCase (clean (field b "email"));
     vOrg := slice0 MAX_ORG_LEN (clean (or_ (field b "organization") (field b "org")));
     vInterest := slice0 MAX_INTEREST_LEN (clean (or_ (field b "interest") (field b "topic")));
     vMessage := slice0 MAX_MESSAGE_LEN (clean (field b "message")) |}.

(** A line break of the template literal with its indentation *)
Definition nl6 : jsstring := 10%N :: lit "      ".

Definition composeSubject (v : Fields) : jsstring :=
  lit "Nuevo contacto " ++ 8212%N :: lit " " ++ vName v.

Definition composeText (v : Fields) : jsstring :=
  joinLines
    [lit "Nombre: " ++ vName v;
     lit "Email: " ++ vEmail v;
     lit "Organizaci" ++ 243%N :: lit "n: " ++ or_ (vOrg v) (lit "-");
     lit "Inter" ++ 233%N :: lit "s: " ++ or_ (vInterest v) (lit "-");
     [];
     lit "Mensaje:";
     vMessage v].

Definition composeHtml (ip : jsstring) (v : Fields) : jsstring :=
  nl6 ++ lit "<h2>Nuevo contacto (SustTech)</h2>"
  ++ nl6 ++ lit "<p><b>Nombre:</b> " ++ escapeHtml (vName v) ++ lit "</p>"
  ++ nl6 ++ lit "<p><b>Email:</b> " ++ escapeHtml (vEmail v) ++ lit "</p>"
  ++ nl6 ++ lit "<p><b>Organizaci" ++ 243%N :: lit "n:</b> "
  ++ escapeHtml (or_ (vOrg v) (lit "-")) ++ lit "</p>"
  ++ nl6 ++ lit "<p><b>Inter" ++ 233%N :: lit "s:</b> "
  ++ escapeHtml (or_ (vInterest v) (lit "-")) ++ lit "</p>"
  ++ nl6 ++ lit "<p><b>Mensaje:</b><br>"
  ++ replaceAll 10 (lit "<br>") (escapeHtml (vMessage v)) ++ lit "</p>"
  ++ nl6 ++ lit "<hr>"
  ++ nl6 ++ lit "<p style=" ++ 34%N :: lit "font-size:12px;color:#64748b"
  ++ 34%N :: lit ">IP: " ++ escapeHtml ip ++ lit "</p>"
  ++ 10%N :: lit "    ".

Definition composeMail (smtpUser contactTo ip : jsstring) (v : Fields) : Mail :=
  {| from := 34%N :: lit "SustTech Contact" ++ 34%N :: lit " <" ++ smtpUser ++ lit ">";
     to := contactTo;
     replyTo := vEmail v;
     subject := composeSubject v;
     text := composeText v;
     html := composeHtml ip v |}.

(** *** The handler, in the order of the source *)

(** Environment mapping, SMTP verification and sending *)
Definition deliver (x : Ext) (ip : jsstring) (v : Fields) : M Response :=
  let SMTP_HOST := orLit (env x !! "SMTP_HOST") (lit "smtp.office365.com") in
  let SMTP_PORT := orLit (env x !! "SMTP_PORT") (lit "587") in
  let SMTP_SECURE :=
    bool_decide (toLowerCase (orLit (env x !! "SMTP_SECURE") (lit "false")) = lit "true") in
  let SMTP_USER := jsor (env x !! "SMTP_USER") (env x !! "M365_USER") in
  let SMTP_PASS := jsor (env x !! "SMTP_PASS") (env x !! "M365_PASS") in
  let CONTACT_TO := jsor (jsor (env x !! "CONTACT_TO") (env x !! "SMTP_TO")) SMTP_USER in
  if negb (truthy SMTP_USER) || negb (truthy SMTP_PASS) then
    ret (reject 500 "SMTP credentials missing.")
  else
    let transporter :=
      {| host := SMTP_HOST; port := SMTP_PORT; secure := SMTP_SECURE;
         user := default [] SMTP_USER; pass := default [] SMTP_PASS |} in
    emit (EvSmtpVerify transporter) ;;
    match smtpVerify x transporter with
    | Some e =>
        emit (EvConsoleError "SMTP verify failed:") ;;
        ret (json 500 false (Some (lit "SMTP verify failed: " ++ e)))
    | None =>
        let mail :=
          composeMail (default [] SMTP_USER) (default [] CONTACT_TO) ip v in
        emit (EvSendMail transporter mail) ;;
        match smtpSend x transporter mail with
        | Some e =>
            emit (EvConsoleError "sendMail failed:") ;;
            ret (json 500 false (Some (lit "SMTP send failed: " ++ e)))
        | None => ret (json 200 true None)
        end
    end.

(** Normalisation, required fields, basic email, extra validation *)
Definition validate (x : Ext) (ip : jsstring) (b : gmap string jsstring) : M Response :=
  let v := normalize b in
  if isEmpty (vName v) || isEmpty (vEmail v) || isEmpty (vMessage v) then
    ret (reject 400 "name, email and message are required.")
  else if negb (matches emailRegex (vEmail v)) then
    markBad ip ;;
    ret (reject 400 "Invalid email.")
  else if negb (hasTwoWords (vName v)) || looksGibberish (vName v) then
    markBad ip ;;
    ret (reject 400 "Invalid name.")
  else if negb (isEmpty (vOrg v)) && looksGibberish (vOrg v) then
    markBad ip ;;
    ret (reject 400 "Invalid organization.")
  else if bool_decide (length (vMessage v) < 20)%nat
          || tooManyUrls (vMessage v) || looksGibberish (vMessage v) then
    markBad ip ;;
    ret (reject 400 "Invalid message.")
  else deliver x ip v.

(** Cloudflare Turnstile verification. An exception of [fetch] or of
    [verifyRes.json()] reaches the outer [catch] of the handler. *)
Definition verifyTurnstile (x : Ext) (ip : jsstring) (b : gmap string jsstring) : M Response :=
  let token := b !! "cf-turnstile-response" in
  if negb (truthy token) then
    markBad ip ;;
    ret (reject 400 "missing_turnstile_token")
  else
    let secret := orLit (env x !! "TURNSTILE_SECRET_KEY") [] in
    emit (EvSiteverify secret (default [] token) ip) ;;
    match siteverify x secret (default [] token) ip with
    | Threw msg =>
        emit (EvConsoleError "Contact API error:") ;;
        ret (json 500 false (Some (lit "Server error: " ++ msg)))
    | Replied false =>
        markBad ip ;;
        emit (EvConsoleError "Turnstile failed:") ;;
        ret (reject 400 "turnstile_failed")
    | Replied true => validate x ip b
    end.

(** [req.headers["x-forwarded-for"]?.split(",")[0]?.trim()
     || req.socket?.remoteAddress || "unknown"] *)
Definition ipOf (req : Request) : jsstring :=
  let forwarded :=
    (λ h, trim (default [] (head (split 44 h)))) <$> (headers req !! "x-forwarded-for") in
  orLit (jsor forwarded (remoteAddress req)) (lit "unknown").

(** [_gotcha && String(_gotcha).trim()] *)
Definition honeypot (b : gmap string jsstring) : bool :=
  negb (isEmpty (field b "_gotcha")) && negb (isEmpty (trim (field b "_gotcha"))).

Definition isJson (req : Request) : bool :=
  includes (toLowerCase (orLit (headers req !! "content-type") []))
           (lit "application/json").

Definition handler (x : Ext) (req : Request) : M Response :=
  if negb (bool_decide (method req = lit "POST")) then
    ret (reject 405 "Method not allowed")
  else if negb (isJson req) then
    ret (reject 400 "Send JSON body")
  else
    let b := default ∅ (body req) in
    if honeypot b then ret (json 200 true None)
    else
      let ip := ipOf req in
      blk <- isBlocked ip ;;
      if blk then ret (reject 403 "IP temporarily blocked.")
      else
        lim <- rateLimited ip ;;
        if lim then ret (reject 429 "Too many requests, try again later.")
        else verifyTurnstile x ip b.

(** A run of the process: the invocations are served one after the other,
    each to completion. *)
Fixpoint serve (evs : list (Ext * Request)) (w : World) : list Response * World :=
  match evs with
  | [] => ([], w)
  | (x, req) :: rest =>
      let '(r, w1) := handler x req w in
      let '(rs, w2) := serve rest w1 in
      (r :: rs, w2)
  end.

End Process.

(** * Notions used in the statements *)

(** What a window of [window] milliseconds keeps at time [now] *)
Definition pruneAt (window now : Z) (hs : list Hit) : list Hit :=
  filter (λ h, now - hit_time h < window) hs.

(** Every run of [m] relates the state before to the state after. *)
Definition stable (R : World → World → Prop) {A} (m : M A) : Prop :=
  ∀ w, R w (snd (m w)).

(** The value returned by [m] satisfies [P], whatever the state. *)
Definition yields {A} (P : A → Prop) (m : M A) : Prop := ∀ w, P (fst (m w)).

(** The rate window is left alone and the clock only moves forward. *)
Definition keepsHits (w w' : World) : Prop :=
  hits w' = hits w ∧ (tick w ≤ tick w')%nat.

(** The status of the answer is one of [l]. *)
Definition statusIn (l : list Z) (r : Response) : Prop := status r ∈ l.

(** The request passes the method, content-type and honeypot checks. *)
Definition reachesIpGates (req : Request) : bool :=
  bool_decide (method req = lit "POST") && isJson req
  && negb (honeypot (default ∅ (body req))).

(** Entries of [ip] that are younger than [T] *)
Definition cntAbove (T : Z) (ip : jsstring) (hs : list Hit) : nat :=
  length (filter (λ h, hit_ip h = ip ∧ T < hit_time h) hs).

(** An attempt is accepted by the rate check when the request passes the
    method, content-type and honeypot checks and the answer is neither the
    blocked nor the rate-limit outcome. *)
Definition passedRate (req : Request) (r : Response) : bool :=
  reachesIpGates req && negb (status r =? 403) && negb (status r =? 429).

(** Accepted attempts of [ip] in a run, given the answers of the run *)
Fixpoint acceptedFor (ip : jsstring) (evs : list (Ext * Request)) (rs : list Response) : nat :=
  match evs, rs with
  | (_, req) :: evs', r :: rs' =>
      (if passedRate req r && bool_decide (ipOf req = ip) then 1 else 0)
      + acceptedFor ip evs' rs'
  | _, _ => O
  end%nat.

(** The oldest timestamp recorded for [ip] *)
Definition oldestFor (ip : jsstring) (hs : list Hit) : option Z :=
  foldr (λ h acc,
           if bool_decide (hit_ip h = ip)
           then Some (match acc with
                      | Some m => Z.min (hit_time h) m
                      | None => hit_time h
                      end)
           else acc) None hs.

(** No IP has more entries in the rate window than the limit. *)
Definition withinLimit (w : World) : Prop :=
  ∀ ip, (countFor ip (hits w) ≤ MAX_PER_WINDOW)%nat.


(** The state in which field validation starts, when the request gets
    that far: it passed the method, content-type and honeypot checks, the
    IP is neither blocked nor rate limited, a token is present and
    Turnstile accepted it. *)
Definition validationState (clock : nat → Z) (x : Ext) (req : Request) (w : World) : option World :=
  if reachesIpGates req then
    let ip := ipOf req in
    let b := default ∅ (body req) in
    let '(blk, w1) := isBlocked clock ip w in
    if blk then None
    else
      let '(lim, w2) := rateLimited clock ip w1 in
      if lim then None
      else if truthy (b !! "cf-turnstile-response") then
        let secret := orLit (env x !! "TURNSTILE_SECRET_KEY") [] in
        let token := default [] (b !! "cf-turnstile-response") in
        match siteverify x secret token ip with
        | Replied true =>
            Some (set_trace (λ t, t ++ [EvSiteverify secret token ip]) w2)
        | _ => None
        end
      else None
  else None.





(** [s] holds no [<], [>] or double quote, and each [&] of [s] starts one
    of the four entities that [escapeHtml] inserts. *)
Fixpoint entitiesOnly (s : jsstring) : bool :=
  match s with
  | [] => true
  | c :: r =>
      (if (c =? 38)%N then
         startsWith (lit "amp;") r || startsWith (lit "lt;") r
         || startsWith (lit "gt;") r || startsWith (lit "quot;") r
       else negb (c =? 60)%N && negb (c =? 62)%N && negb (c =? 34)%N)
      && entitiesOnly r
  end.

(** Occurrences of the code unit [c] in [s] *)
Definition countUnit (c : N) (s : jsstring) : nat :=
  length (filter (λ u, u = c) s).

(** The replacement of one code unit by [escapeHtml] *)
Definition escapeUnit (u : N) : jsstring :=
  if (u =? 38)%N then lit "&amp;"
  else if (u =? 60)%N then lit "&lt;"
  else if (u =? 62)%N then lit "&gt;"
  else if (u =? 34)%N then lit "&quot;"
  else [u].

(** The HTML body for empty inputs: what the template itself holds *)
Definition blankFields : Fields :=
  {| vName := []; vEmail := []; vOrg := []; vInterest := []; vMessage := [] |}.

(** ** Concrete requests and clocks used to exercise the statements *)

(** A clock that ticks once a second for its first readings and is then
    read about a quarter of an hour later. *)
Definition clockA (n : nat) : Z :=
  if (n <? 11)%nat then 1000000 + 1000 * Z.of_nat n else 2000000 + Z.of_nat n.

(** An outside world where Turnstile accepts every token and the relay
    accepts every mail. *)
Definition extOk : Ext :=
  {| env := {[ "SMTP_USER" := lit "contact@susttech.example";
               "SMTP_PASS" := lit "secret" ]};
     siteverify := λ _ _ _, Replied true;
     smtpVerify := λ _, None;
     smtpSend := λ _ _, None |}.

(** A JSON POST from 203.0.113.7 with the given body *)
Definition post (fields : list (string * jsstring)) : Request :=
  {| method := lit "POST";
     headers := {[ "content-type" := lit "application/json";
                   "x-forwarded-for" := lit "203.0.113.7, 10.0.0.1" ]};
     remoteAddress := None;
     body := Some (list_to_map fields) |}.

Definition postNoToken : Request :=
  post [("name", lit "Jane Doe"); ("email", lit "jane@example.com")].

(** A clock read every 20 seconds, then again more than an hour later. *)
Definition clockB (n : nat) : Z :=
  if (n <? 18)%nat then 20000 * Z.of_nat n else 4000000 + 20000 * Z.of_nat n.

Definition ipA : jsstring := lit "203.0.113.7".

Definition plausibleMessage : jsstring :=
  lit "Hello there, I would like to know more about your services.".

(** A complete submission whose honeypot field holds one space *)
Definition postBlankHoneypot : Request :=
  post [("name", lit "Jane Doe"); ("email", lit "jane@example.com");
        ("message", plausibleMessage); ("cf-turnstile-response", lit "token");
        ("_gotcha", lit " ")].

(** A complete submission whose honeypot field is filled *)
Definition postHoneypot : Request :=
  post [("name", lit "Jane Doe"); ("email", lit "jane@example.com");
        ("message", plausibleMessage); ("cf-turnstile-response", lit "token");
        ("_gotcha", lit "http://spam.example")].

Definition isSendMail (e : Event) : bool :=
  match e with
  | EvSendMail _ _ => true
  | _ => false
  end.

(** A submission that Turnstile accepts and that has no name *)
Definition postNoName : Request :=
  post [("email", lit "jane@example.com"); ("message", plausibleMessage);
        ("cf-turnstile-response", lit "token")].

(** The same with the email [not-an-email] *)
Definition postBadEmailNoName : Request :=
  post [("email", lit "not-an-email"); ("message", plausibleMessage);
        ("cf-turnstile-response", lit "token")].

(** The email [not-an-email] with a name and a message that would fail the
    later checks *)
Definition postBadEmail : Request :=
  post [("name", lit "xq"); ("email", lit " Not-An-Email ");
        ("message", lit "zzz"); ("organization", lit "qwrtpsdfg");
        ("cf-turnstile-response", lit "token")].


(** A valid submission without organization *)
Definition postGood : Request :=
  post [("name", lit "Jane Doe"); ("email", lit "jane@example.com");
        ("message", plausibleMessage);
        ("cf-turnstile-response", lit "token")].





Definition pageForcedPt : Page :=
  {| forced := Some (lit "pt"); pathname := lit "/es/contact";
     saved := Some (lit "en") |}.
Definition pagePathEs : Page :=
  {| forced := Some (lit "fr"); pathname := lit "/es/contact";
     saved := Some (lit "pt") |}.
Definition pageSavedPt : Page :=
  {| forced := None; pathname := lit "/about"; saved := Some (lit "pt") |}.
Definition pagePlain : Page :=
  {| forced := None; pathname := lit "/"; saved := None |}.

Definition hostileFields : Fields :=
  {| vName := lit "<script>alert(1)</script>";
     vEmail := lit "a&b@example.com";
     vOrg := 34%N :: lit " onmouseover=x";
     vInterest := lit "<b>";
     vMessage := lit "line one" ++ 10%N :: lit "<img src=x>" |}.

(** ** Further notions *)

(** The answer has one of the six statuses of the endpoint, [ok] exactly
    with 200, and an [error] exactly without [ok]. *)
Definition wellFormed (r : Response) : Prop :=
  status r ∈ [200; 400; 403; 405; 429; 500]
  ∧ (ok r = true ↔ status r = 200)
  ∧ (error r = None ↔ ok r = true).

(** The block entry of [ip] is left alone. *)
Definition keepsBlock (ip : jsstring) (w w' : World) : Prop :=
  blocked w' !! ip = blocked w !! ip.

(** The rate window holds no more entries of [ip] than before. *)
Definition noMoreHits (ip : jsstring) (w w' : World) : Prop :=
  (countFor ip (hits w') ≤ countFor ip (hits w))%nat.

Definition ipB : jsstring := lit "198.51.100.9".

(** The denylist and the bad events are the same in both states, and the
    clock has not been read fewer times. *)
Definition sameAbuse (w w' : World) : Prop :=
  blocked w' = blocked w ∧ badHits w' = badHits w ∧ (tick w ≤ tick w')%nat.

(** The state after the events [es] have been logged, one by one *)
Definition logged (es : list Event) (w : World) : World :=
  foldl (λ w e, set_trace (λ t, t ++ [e]) w) w es.

(** What an invocation that started in [w] and ended in [w'] asked of the
    outside world *)
Definition newEvents (w w' : World) : list Event :=
  drop (length (trace w)) (trace w').

(** The credentials, the transport and the mail as [deliver] computes them *)
Definition smtpUser (x : Ext) : option jsstring :=
  jsor (env x !! "SMTP_USER") (env x !! "M365_USER").


Definition contactTo (x : Ext) : option jsstring :=
  jsor (jsor (env x !! "CONTACT_TO") (env x !! "SMTP_TO")) (smtpUser x).





(** The ASCII letters of a string that are not vowels *)
Definition isOtherLetter (c : N) : bool := isLetter c && negb (isVowel c).

(** The four characters that [escapeHtml] replaces *)
Definition isMarkup (c : N) : bool :=
  (c =? 38)%N || (c =? 60)%N || (c =? 62)%N || (c =? 34)%N.

(** ** The language switch (assets/i18n/i18n.js) *)

(** The text [load] gives the toggle button:
    [(lang === 'en') ? 'ES' : (lang === 'es' ? 'EN' : 'EN')] *)
Definition toggleLabel (lang : jsstring) : jsstring :=
  if bool_decide (lang = lit "en") then lit "ES"
  else if bool_decide (lang = lit "es") then lit "EN" else lit "EN".

(** The click handler, for a click on a control whose [data-lang] attribute
    is [dataLang] ([None] when it has none, as the toggle button):
    [window.__CURRENT_LANG__ || detectLang()], then
    [btn.getAttribute('data-lang') || (current === 'en' ? 'es' : 'en')],
    then the address it navigates to. *)
Definition currentLang (p : Page) (current : option jsstring) : jsstring :=
  orLit current (detectLang p).

Definition clickTarget (dataLang : option jsstring) (current : jsstring) : jsstring :=
  orLit dataLang (if bool_decide (current = lit "en") then lit "es" else lit "en").

Definition clickHref (target : jsstring) : jsstring :=
  if bool_decide (target = lit "en") then lit "/"
  else lit "/" ++ target ++ lit "/".

(** ** What a pattern accepts *)

(** [accepts r s]: the whole of [s] is a match of [r]. *)
Inductive accepts : regex → jsstring → Prop :=
| acc_eps : accepts REps []
| acc_class p c : p c = true → accepts (RClass p) [c]
| acc_cat r1 r2 s1 s2 :
    accepts r1 s1 → accepts r2 s2 → accepts (RCat r1 r2) (s1 ++ s2)
| acc_alt_l r1 r2 s : accepts r1 s → accepts (RAlt r1 r2) s
| acc_alt_r r1 r2 s : accepts r2 s → accepts (RAlt r1 r2) s
| acc_star_nil r : accepts (RStar r) []
| acc_star_more r s1 s2 :
    accepts r s1 → accepts (RStar r) s2 → accepts (RStar r) (s1 ++ s2).

(** What the tracker holds lies in the past: each bad event is no younger
    than the latest reading of the clock, and each block ends [BLOCK_MS]
    after an earlier reading of the clock that no bad event of its IP is
    younger than. *)
Definition tracked (clock : nat → Z) (w : World) : Prop :=
  (∀ h, h ∈ badHits w → hit_time h ≤ clock (tick w))
  ∧ (∀ ip u, blocked w !! ip = Some u →
       ∃ k, (k < tick w)%nat ∧ u = clock k + BLOCK_MS
            ∧ ∀ h, h ∈ badHits w → hit_ip h = ip → hit_time h ≤ clock k).

(** [s] begins with [://] *)
Definition startsColonSlashes (s : jsstring) : bool :=
  match s with
  | a :: b :: c :: _ => ((a =? 58) && (b =? 47) && (c =? 47))%N
  | _ => false
  end.

(** [s] begins with [http://] or [https://], in any letter case *)
Definition startsUrl (s : jsstring) : bool :=
  match s with
  | h :: t1 :: t2 :: p :: rest =>
      ((foldUnit h =? 104) && (foldUnit t1 =? 116)
       && (foldUnit t2 =? 116) && (foldUnit p =? 112))%N
      && (startsColonSlashes rest
          || match rest with
             | s5 :: rest' => (foldUnit s5 =? 115)%N && startsColonSlashes rest'
             | [] => false
             end)
  | _ => false
  end.

(** The number of positions of [s] where such a prefix begins *)
Fixpoint urlStarts (s : jsstring) : nat :=
  match s with
  | [] => O
  | _ :: s' => ((if startsUrl s then 1 else 0) + urlStarts s')%nat
  end.

(** ** Translated attributes (assets/i18n/i18n.js) *)

(** The value of [data-i18n-attr] as [applyDict] reads it:
    [split(',').map(s => s.trim()).filter(Boolean)] gives the pairs, and
    [const [attr, key] = pair.split(':').map(s => s.trim())] the two parts
    of a pair; a pair is looked up in the dictionary when [attr && key]. *)
Definition attrPairs (s : jsstring) : list jsstring :=
  filter (λ p, p ≠ []) (trim <$> split 44 s).

Definition attrAndKey (pair : jsstring) : option jsstring * option jsstring :=
  let parts := trim <$> split 58 pair in
  (parts !! 0%nat, parts !! 1%nat).

Definition attrTargets (s : jsstring) : list (jsstring * jsstring) :=
  omap (λ pair,
          let '(attr, key) := attrAndKey pair in
          if truthy attr && truthy key
          then Some (default [] attr, default [] key) else None)
       (attrPairs s).

(** The documented form of the value: [attr:key] entries joined by a comma
    and a space *)
Fixpoint attrList (ps : list (jsstring * jsstring)) : jsstring :=
  match ps with
  | [] => []
  | (a, k) :: rest =>
      match rest with
      | [] => a ++ 58%N :: k
      | _ => a ++ 58%N :: k ++ 44%N :: 32%N :: attrList rest
      end
  end.

(** Not empty, no white space at either end, no comma and no colon *)
Definition plainWord (s : jsstring) : Prop :=
  s ≠ [] ∧ trim s = s ∧ (44%N ∉ s) ∧ (58%N ∉ s).

(** * Properties *)

Arguments lit : simpl never.

(** ** The validators on literal inputs *)

Example ex_email_ok : matches emailRegex (lit "jane@example.com") = true.
Proof. vm_compute. reflexivity. Qed.
Example ex_email_bad : matches emailRegex (lit "not-an-email") = false.
Proof. vm_compute. reflexivity. Qed.
Example ex_email_bad2 : matches emailRegex (lit "a@b@c.d") = false.
Proof. vm_compute. reflexivity. Qed.
Example ex_two : hasTwoWords (lit "Jane Doe") = true /\ hasTwoWords (lit "Jane") = false.
Proof. vm_compute. split; reflexivity. Qed.
Example ex_gib : looksGibberish (lit "Jane Doe") = false
  /\ looksGibberish (lit "xkcdqwrtpl") = true
  /\ looksGibberish (lit "QWxhZGRpbjpvcGVuIHNlc2FtZQ==") = true
  /\ looksGibberish (lit "Hello there, I would like to know more about your services.") = false.
Proof. vm_compute. repeat split; reflexivity. Qed.
Example ex_urls : countMatches urlRe O (lit "see http://a.b and HTTPS://c.d or httpx://") = 2%nat.
Proof. vm_compute. reflexivity. Qed.
Example ex_esc : escapeHtml (lit "a<b&c") = lit "a&lt;b&amp;c".
Proof. vm_compute. reflexivity. Qed.
Example ex_lang : detectLang {| forced := None; pathname := lit "/es/about"; saved := Some (lit "pt") |} = lit "es".
Proof. vm_compute. reflexivity. Qed.
Example ex_trim : trim (lit "  a b  ") = lit "a b".
Proof. vm_compute. reflexivity. Qed.

(** ** The abuse tracker, one call at a time *)

Section Tracker.

Variable clock : nat → Z.


Lemma rateLimited_run ip w :
  rateLimited clock ip w =
    let now := clock (tick w) in
    let pruned := pruneAt WINDOW_MS now (hits w) in
    if bool_decide (MAX_PER_WINDOW ≤ countFor ip pruned)%nat
    then (true, set_hits (λ _, pruned) (set_tick S w))
    else (false,
          set_hits (λ _, pruned ++ [{| hit_ip := ip; hit_time := now |}])
                   (set_tick S w)).
Proof.
  unfold rateLimited, bind, Date_now, modify, gets, ret, pruneAt. simpl.
  case_bool_decide; reflexivity.
Qed.

Lemma markBad_run ip w :
  markBad clock ip w =
    let now := clock (tick w) in
    let kept := pruneAt BAD_WINDOW_MS now
                  (badHits w ++ [{| hit_ip := ip; hit_time := now |}]) in
    if bool_decide (BAD_LIMIT ≤ countFor ip kept)%nat
    then (tt, set_blocked (<[ip := clock (S (tick w)) + BLOCK_MS]>)
                (set_badHits (λ _, kept) (set_tick (λ n, S (S n)) w)))
    else (tt, set_badHits (λ _, kept) (set_tick S w)).
Proof.
  unfold markBad, punish, bind, Date_now, modify, gets, ret, pruneAt. simpl.
  case_bool_decide; reflexivity.
Qed.

Lemma isBlocked_run ip w :
  isBlocked clock ip w =
    match blocked w !! ip with
    | Some u =>
        if bool_decide (u ≠ 0) then
          if bool_decide (clock (tick w) < u) then (true, set_tick S w)
          else if bool_decide (u ≤ clock (S (tick w)))
               then (false, set_blocked (delete ip) (set_tick (λ n, S (S n)) w))
               else (false, set_tick (λ n, S (S n)) w)
        else (false, w)
    | None => (false, w)
    end.
Proof.
  unfold isBlocked, bind, Date_now, modify, gets, ret. simpl.
  destruct (blocked w !! ip) as [u|]; [|reflexivity].
  repeat case_bool_decide; simpl in *; done.
Qed.

End Tracker.

(** ** Frame reasoning for the state-passing code *)

Section Frames.

Context (R : World → World → Prop).
Hypothesis R_refl : ∀ w, R w w.
Hypothesis R_trans : ∀ w1 w2 w3, R w1 w2 → R w2 w3 → R w1 w3.


Lemma stable_ret {A} (a : A) : stable R (ret a).
Proof. intros w. apply R_refl. Qed.

Lemma stable_bind {A B} (m : M A) (k : A → M B) :
  stable R m → (∀ a, stable R (k a)) → stable R (bind m k).
Proof.
  intros Hm Hk w. unfold bind. specialize (Hm w).
  destruct (m w) as [a w1]. eapply R_trans; [exact Hm | apply Hk].
Qed.

End Frames.


Lemma yields_ret {A} (P : A → Prop) (a : A) : P a → yields P (ret a).
Proof. intros H w. exact H. Qed.

Lemma yields_bind {A B} (P : B → Prop) (m : M A) (k : A → M B) :
  (∀ a, yields P (k a)) → yields P (bind m k).
Proof. intros Hk w. unfold bind. destruct (m w) as [a w1]. apply Hk. Qed.

(** ** The stages of the handler *)

Section Stages.

Variable clock : nat → Z.


Lemma keepsHits_refl w : keepsHits w w.
Proof. split; [reflexivity | lia]. Qed.

Lemma keepsHits_trans w1 w2 w3 : keepsHits w1 w2 → keepsHits w2 w3 → keepsHits w1 w3.
Proof. intros [? ?] [? ?]. split; [congruence | lia]. Qed.

Lemma markBad_keepsHits ip : stable keepsHits (markBad clock ip).
Proof.
  intros w. rewrite markBad_run. cbv zeta.
  case_bool_decide; split; cbn; (reflexivity || lia).
Qed.

Lemma emit_keepsHits e : stable keepsHits (emit e).
Proof. intros w. split; cbn; (reflexivity || lia). Qed.

Lemma isBlocked_keepsHits ip : stable keepsHits (isBlocked clock ip).
Proof.
  intros w. rewrite isBlocked_run.
  repeat case_match; split; cbn; (reflexivity || lia).
Qed.

Ltac frame_step :=
  lazymatch goal with
  | |- stable _ (ret _) => apply stable_ret; apply keepsHits_refl
  | |- stable _ (markBad _ _) => apply markBad_keepsHits
  | |- stable _ (emit _) => apply emit_keepsHits
  | |- stable _ (bind _ _) =>
      apply (stable_bind keepsHits keepsHits_trans); [|intros ?]
  end.

Lemma deliver_keepsHits x ip v : stable keepsHits (deliver x ip v).
Proof. unfold deliver. repeat (case_match || frame_step). Qed.

Lemma validate_keepsHits x ip b : stable keepsHits (validate clock x ip b).
Proof.
  unfold validate.
  repeat first [ case_match | apply deliver_keepsHits | frame_step ].
Qed.

Lemma verifyTurnstile_keepsHits x ip b :
  stable keepsHits (verifyTurnstile clock x ip b).
Proof.
  unfold verifyTurnstile.
  repeat first [ case_match | apply validate_keepsHits | frame_step ].
Qed.


Ltac status_step :=
  lazymatch goal with
  | |- yields _ (ret _) =>
      apply yields_ret; unfold statusIn; cbn [status json reject];
      apply list_elem_of_In; cbn [In]; auto 6
  | |- yields _ (bind _ _) => apply yields_bind; intros ?
  end.

Lemma deliver_status x ip v : yields (statusIn [200; 400; 500]) (deliver x ip v).
Proof. unfold deliver. repeat (case_match || status_step). Qed.

Lemma validate_status x ip b :
  yields (statusIn [200; 400; 500]) (validate clock x ip b).
Proof.
  unfold validate.
  repeat first [ case_match | apply deliver_status | status_step ].
Qed.

Lemma verifyTurnstile_status x ip b :
  yields (statusIn [200; 400; 500]) (verifyTurnstile clock x ip b).
Proof.
  unfold verifyTurnstile.
  repeat first [ case_match | apply validate_status | status_step ].
Qed.


(** The handler once the method, the content type and the honeypot have
    let the request through. *)
Lemma handler_ipGates x req w :
  reachesIpGates req = true →
  handler clock x req w =
    let ip := ipOf req in
    let '(blk, w1) := isBlocked clock ip w in
    if blk then (reject 403 "IP temporarily blocked.", w1)
    else
      let '(lim, w2) := rateLimited clock ip w1 in
      if lim then (reject 429 "Too many requests, try again later.", w2)
      else verifyTurnstile clock x ip (default ∅ (body req)) w2.
Proof.
  unfold reachesIpGates, handler. intros H.
  apply andb_prop in H as [H Hh]. apply andb_prop in H as [Hm Hj].
  rewrite Hm, Hj. apply negb_true_iff in Hh. rewrite Hh.
  cbn [negb]. cbv zeta.
  unfold bind, ret. destruct (isBlocked clock (ipOf req) w) as [[] w1]; [done|].
  destruct (rateLimited clock (ipOf req) w1) as [[] w2]; done.
Qed.

Lemma handler_early x req w :
  reachesIpGates req = false → snd (handler clock x req w) = w.
Proof.
  unfold reachesIpGates, handler, ret. intros H.
  destruct (bool_decide (method req = lit "POST")); [|done].
  destruct (isJson req); [|done].
  cbn [andb negb] in *. apply negb_false_iff in H. by rewrite H.
Qed.

End Stages.

(** ** The rate window over a run *)

Lemma cntAbove_app T ip hs h :
  cntAbove T ip (hs ++ [h]) =
    (cntAbove T ip hs +
     if bool_decide (hit_ip h = ip ∧ (T < hit_time h)%Z) then 1 else 0)%nat.
Proof.
  unfold cntAbove. rewrite filter_app, length_app. f_equal.
  rewrite filter_cons, filter_nil.
  case_bool_decide; case_decide; done.
Qed.

Lemma cntAbove_prune T ip now hs :
  now ≤ T + WINDOW_MS →
  cntAbove T ip (pruneAt WINDOW_MS now hs) = cntAbove T ip hs.
Proof.
  intros Hnow. unfold cntAbove, pruneAt.
  induction hs as [|h hs IH]; [reflexivity|].
  rewrite !filter_cons.
  destruct (decide (now - hit_time h < WINDOW_MS)) as [Hk|Hk].
  - rewrite filter_cons. case_decide; cbn [length]; rewrite IH; reflexivity.
  - rewrite IH. case_decide as Hd; [|reflexivity].
    destruct Hd as [_ Hd]. lia.
Qed.

Lemma countFor_window now ip hs :
  countFor ip (pruneAt WINDOW_MS now hs) = cntAbove (now - WINDOW_MS) ip hs.
Proof.
  unfold countFor, cntAbove, pruneAt.
  induction hs as [|h hs IH]; [reflexivity|].
  rewrite !filter_cons.
  destruct (decide (now - hit_time h < WINDOW_MS)) as [Hk|Hk].
  - rewrite filter_cons.
    destruct (decide (hit_ip h = ip)) as [He|He].
    + rewrite decide_True by (split; [done|lia]). cbn [length]. by rewrite IH.
    + rewrite decide_False by (intros [? _]; done). exact IH.
  - rewrite decide_False by (intros [_ ?]; lia). exact IH.
Qed.

Lemma countFor_prune_le window now ip hs :
  (countFor ip (pruneAt window now hs) ≤ countFor ip hs)%nat.
Proof.
  unfold countFor, pruneAt. induction hs as [|h hs IH]; [reflexivity|].
  rewrite !filter_cons.
  destruct (decide (now - hit_time h < window)).
  - rewrite filter_cons. case_decide; cbn [length]; lia.
  - case_decide; cbn [length]; lia.
Qed.

Lemma countFor_prune_lt window now ip hs h :
  h ∈ hs → hit_ip h = ip → window ≤ now - hit_time h →
  (countFor ip (pruneAt window now hs) < countFor ip hs)%nat.
Proof.
  intros Hin Hip Hold. unfold countFor, pruneAt.
  induction hs as [|h' hs IH]; [by apply elem_of_nil in Hin|].
  apply elem_of_cons in Hin as [<-|Hin].
  - rewrite filter_cons, decide_False by lia.
    rewrite (filter_cons (λ h0, hit_ip h0 = ip)), decide_True by done.
    cbn [length]. pose proof (countFor_prune_le window now ip hs) as Hle.
    unfold countFor, pruneAt in Hle. lia.
  - specialize (IH Hin). rewrite !filter_cons.
    destruct (decide (now - hit_time h' < window)).
    + rewrite filter_cons. case_decide; cbn [length]; lia.
    + case_decide; cbn [length]; lia.
Qed.

Lemma countFor_app ip hs h :
  countFor ip (hs ++ [h]) =
    (countFor ip hs + if bool_decide (hit_ip h = ip) then 1 else 0)%nat.
Proof.
  unfold countFor. rewrite filter_app, length_app. f_equal.
  rewrite filter_cons, filter_nil. case_bool_decide; case_decide; done.
Qed.

Lemma oldestFor_elem ip hs t0 :
  oldestFor ip hs = Some t0 →
  ∃ h, h ∈ hs ∧ hit_ip h = ip ∧ hit_time h = t0.
Proof.
  revert t0. induction hs as [|h hs IH]; intros t0; [done|].
  cbn [oldestFor foldr]. fold (oldestFor ip hs).
  case_bool_decide as Hip.
  - destruct (oldestFor ip hs) as [m|] eqn:Hm.
    + intros [= <-]. destruct (Z.min_spec (hit_time h) m) as [[_ ->]|[_ ->]].
      * exists h. split; [left|done].
      * destruct (IH m eq_refl) as (h' & ? & ? & ?).
        exists h'. split; [by right|done].
    + intros [= <-]. exists h. split; [left|done].
  - intros H. destruct (IH _ H) as (h' & ? & ? & ?).
    exists h'. split; [by right|done].
Qed.

Section Window.

Variable clock : nat → Z.
Hypothesis clock_mono : ∀ i j, (i ≤ j)%nat → clock i ≤ clock j.

Lemma handler_tick x req w : (tick w ≤ tick (snd (handler clock x req w)))%nat.
Proof.
  destruct (reachesIpGates req) eqn:Hg.
  - rewrite (handler_ipGates clock x req w Hg). cbv zeta.
    pose proof (isBlocked_keepsHits clock (ipOf req) w) as [_ Hb].
    destruct (isBlocked clock (ipOf req) w) as [[] w1]; cbn [snd] in *; [lia|].
    rewrite rateLimited_run. cbv zeta.
    case_bool_decide; cbn [snd tick set_hits set_tick]; [lia|].
    match goal with |- context [verifyTurnstile clock x ?i ?b ?w2] =>
      pose proof (verifyTurnstile_keepsHits clock x i b w2) as [_ Hv] end.
    cbn [tick set_hits set_tick] in Hv. lia.
  - rewrite (handler_early clock x req w Hg). lia.
Qed.

Lemma handler_window T ip x req w :
  T < clock (tick w) →
  clock (tick (snd (handler clock x req w))) ≤ T + WINDOW_MS →
  (cntAbove T ip (hits w)
   + (if passedRate req (fst (handler clock x req w)) && bool_decide (ipOf req = ip)
      then 1 else 0)
   ≤ cntAbove T ip (hits (snd (handler clock x req w))))%nat.
Proof.
  intros Hlo Hhi. unfold passedRate.
  destruct (reachesIpGates req) eqn:Hg.
  2:{ rewrite (handler_early clock x req w Hg). cbn [andb]. lia. }
  revert Hhi. rewrite (handler_ipGates clock x req w Hg). cbv zeta.
  pose proof (isBlocked_keepsHits clock (ipOf req) w) as [Hh Hb].
  destruct (isBlocked clock (ipOf req) w) as [[] w1]; cbn [snd fst] in *.
  { intros _. rewrite Hh. cbn. lia. }
  rewrite rateLimited_run. cbv zeta.
  assert (T < clock (tick w1)) as Hlo1.
  { pose proof (clock_mono _ _ Hb). lia. }
  case_bool_decide as Hc; cbn [fst snd].
  - intros Hhi. cbn [hits set_hits status reject json Z.eqb Pos.eqb negb andb].
    rewrite cntAbove_prune, Hh; [lia|].
    cbn [tick set_hits set_tick] in Hhi.
    pose proof (clock_mono (tick w1) (S (tick w1)) ltac:(lia)). lia.
  - match goal with |- context [verifyTurnstile clock x ?i ?b ?w2] =>
      pose proof (verifyTurnstile_keepsHits clock x i b w2) as [Hvh Hvt];
      destruct (verifyTurnstile clock x i b w2) as [r w3] end.
    cbn [fst snd hits tick set_hits set_tick] in *. intros Hhi.
    assert (clock (tick w1) ≤ T + WINDOW_MS) as Hhi1.
    { pose proof (clock_mono (tick w1) (tick w3) ltac:(lia)). lia. }
    rewrite Hvh, cntAbove_app, cntAbove_prune, Hh by done.
    cbn [hit_ip hit_time].
    destruct (bool_decide (ipOf req = ip)) eqn:Hi.
    + apply bool_decide_eq_true in Hi.
      rewrite bool_decide_eq_true_2 by done.
      destruct (_ && _ && _); lia.
    + rewrite andb_false_r. lia.
Qed.

Lemma serve_tick evs : ∀ w, (tick w ≤ tick (snd (serve clock evs w)))%nat.
Proof.
  induction evs as [|[x req] evs IH]; intros w; [cbn; lia|].
  cbn [serve]. pose proof (handler_tick x req w) as Ht.
  destruct (handler clock x req w) as [r w1]. specialize (IH w1).
  destruct (serve clock evs w1) as [rs w2]. cbn [snd] in *. lia.
Qed.

Lemma serve_window T ip evs : ∀ w,
  T < clock (tick w) →
  clock (tick (snd (serve clock evs w))) ≤ T + WINDOW_MS →
  (cntAbove T ip (hits w) + acceptedFor ip evs (fst (serve clock evs w))
   ≤ cntAbove T ip (hits (snd (serve clock evs w))))%nat.
Proof.
  induction evs as [|[x req] evs IH]; intros w Hlo Hhi; [cbn; lia|].
  revert Hhi. cbn [serve].
  pose proof (handler_window T ip x req w Hlo) as Hstep.
  pose proof (handler_tick x req w) as Ht.
  destruct (handler clock x req w) as [r w1]. cbn [fst snd] in *.
  pose proof (serve_tick evs w1) as Hs. specialize (IH w1).
  destruct (serve clock evs w1) as [rs w2]. cbn [fst snd acceptedFor] in *.
  intros Hhi.
  assert (clock (tick w1) ≤ T + WINDOW_MS) as H1.
  { pose proof (clock_mono _ _ Hs). lia. }
  assert (T < clock (tick w1)) as H2.
  { pose proof (clock_mono _ _ Ht). lia. }
  specialize (Hstep H1). specialize (IH H2 Hhi). lia.
Qed.

End Window.

(** ** The rate window never holds more than the limit *)

Section Limit.

Variable clock : nat → Z.

Lemma handler_withinLimit x req w :
  withinLimit w → withinLimit (snd (handler clock x req w)).
Proof.
  intros Hw. destruct (reachesIpGates req) eqn:Hg.
  2:{ by rewrite (handler_early clock x req w Hg). }
  rewrite (handler_ipGates clock x req w Hg). cbv zeta.
  pose proof (isBlocked_keepsHits clock (ipOf req) w) as [Hh _].
  destruct (isBlocked clock (ipOf req) w) as [[] w1]; cbn [snd] in *.
  { intros ip. rewrite Hh. apply Hw. }
  rewrite rateLimited_run. cbv zeta.
  case_bool_decide as Hc; cbn [snd].
  - intros ip. cbn [hits set_hits]. rewrite Hh.
    etrans; [apply countFor_prune_le | apply Hw].
  - match goal with |- context [verifyTurnstile clock x ?i ?b ?w2] =>
      pose proof (verifyTurnstile_keepsHits clock x i b w2) as [Hvh _];
      destruct (verifyTurnstile clock x i b w2) as [r w3] end.
    cbn [snd hits set_hits set_tick] in *. intros ip. rewrite Hvh, countFor_app.
    cbn [hit_ip]. case_bool_decide as Hi.
    + subst ip. unfold MAX_PER_WINDOW in *. lia.
    + rewrite Nat.add_0_r, Hh. etrans; [apply countFor_prune_le | apply Hw].
Qed.

Lemma serve_withinLimit evs : ∀ w,
  withinLimit w → withinLimit (snd (serve clock evs w)).
Proof.
  induction evs as [|[x req] evs IH]; intros w Hw; [exact Hw|].
  cbn [serve]. pose proof (handler_withinLimit x req w Hw) as H1.
  destruct (handler clock x req w) as [r w1]. specialize (IH w1 H1).
  destruct (serve clock evs w1) as [rs w2]. exact IH.
Qed.

Lemma init_withinLimit : withinLimit init.
Proof. intros ip. cbn. lia. Qed.

End Limit.

(** C1. [rateLimited(ip)] answers true exactly when at least 5 timestamps
    of that IP are left in the trailing 60-second window after pruning, and
    otherwise appends the current attempt and answers false. Hence, for a
    request that reaches the rate check (POST, JSON, empty honeypot, IP not
    blocked): when the run served since the window opened holds 5 accepted
    attempts of its IP, the answer is the 429 outcome; and in a process
    started from the empty state, once 60 seconds have passed since the
    oldest timestamp recorded for the IP, the attempt is accepted again.
    The clock is assumed not to run backwards. *)
Theorem rate_limit_window (clock : nat → Z)
    (clock_mono : ∀ i j, (i ≤ j)%nat → clock i ≤ clock j) :
  (∀ ip w,
     let pruned := pruneAt WINDOW_MS (clock (tick w)) (hits w) in
     (fst (rateLimited clock ip w) = true ↔ (5 ≤ countFor ip pruned)%nat)
     ∧ (fst (rateLimited clock ip w) = true →
        hits (snd (rateLimited clock ip w)) = pruned)
     ∧ (fst (rateLimited clock ip w) = false →
        hits (snd (rateLimited clock ip w)) =
          pruned ++ [{| hit_ip := ip; hit_time := clock (tick w) |}]))
  ∧ (∀ w0 evs x req wb,
       let w := snd (serve clock evs w0) in
       reachesIpGates req = true →
       isBlocked clock (ipOf req) w = (false, wb) →
       clock (tick wb) - clock (tick w0) < WINDOW_MS →
       (5 ≤ acceptedFor (ipOf req) evs (fst (serve clock evs w0)))%nat →
       fst (handler clock x req w) =
         reject 429 "Too many requests, try again later.")
  ∧ (∀ evs x req wb t0,
       let w := snd (serve clock evs init) in
       reachesIpGates req = true →
       isBlocked clock (ipOf req) w = (false, wb) →
       oldestFor (ipOf req) (hits w) = Some t0 →
       WINDOW_MS ≤ clock (tick wb) - t0 →
       fst (rateLimited clock (ipOf req) wb) = false
       ∧ status (fst (handler clock x req w)) ≠ 429).
Proof.
  split; [|split].
  - intros ip w pruned. rewrite rateLimited_run. cbv zeta. fold pruned.
    unfold MAX_PER_WINDOW.
    case_bool_decide; cbn [fst snd hits set_hits]; repeat split; done.
  - intros w0 evs x req wb w Hg Hb Hwin Hacc.
    rewrite (handler_ipGates clock x req w Hg). cbv zeta. rewrite Hb.
    rewrite rateLimited_run. cbv zeta.
    pose proof (isBlocked_keepsHits clock (ipOf req) w) as [Hh Ht].
    rewrite Hb in Hh, Ht. cbn [snd] in Hh, Ht.
    rewrite bool_decide_eq_true_2; [reflexivity|].
    rewrite countFor_window, Hh. unfold MAX_PER_WINDOW.
    pose proof (serve_window clock clock_mono (clock (tick wb) - WINDOW_MS)
                  (ipOf req) evs w0) as Hs.
    fold w in Hs. etrans; [exact Hacc|]. etrans; [|apply Hs].
    + lia.
    + lia.
    + pose proof (clock_mono _ _ Ht). lia.
  - intros evs x req wb t0 w Hg Hb Hold Hexp.
    pose proof (isBlocked_keepsHits clock (ipOf req) w) as [Hh Ht].
    rewrite Hb in Hh, Ht. cbn [snd] in Hh, Ht.
    pose proof (serve_withinLimit clock evs init init_withinLimit (ipOf req)) as Hlim.
    fold w in Hlim.
    destruct (oldestFor_elem _ _ _ Hold) as (h & Hin & Hip & Htime).
    assert (fst (rateLimited clock (ipOf req) wb) = false) as Hrate.
    { rewrite rateLimited_run. cbv zeta.
      rewrite bool_decide_eq_false_2; [reflexivity|].
      pose proof (countFor_prune_lt WINDOW_MS (clock (tick wb)) (ipOf req)
                    (hits wb) h) as Hlt.
      rewrite Hh in Hlt. specialize (Hlt Hin Hip ltac:(lia)).
      rewrite Hh. unfold MAX_PER_WINDOW in *. lia. }
    split; [exact Hrate|].
    rewrite (handler_ipGates clock x req w Hg). cbv zeta. rewrite Hb.
    destruct (rateLimited clock (ipOf req) wb) as [lim w2]. cbn [fst] in Hrate.
    subst lim.
    pose proof (verifyTurnstile_status clock x (ipOf req) (default ∅ (body req)) w2) as Hst.
    unfold statusIn in Hst. intros Heq. rewrite Heq in Hst.
    apply list_elem_of_In in Hst. cbn [In] in Hst. intuition discriminate.
Qed.

Lemma clockA_mono : ∀ i j, (i ≤ j)%nat → clockA i ≤ clockA j.
Proof.
  intros i j Hij. unfold clockA.
  destruct (Nat.ltb_spec i 11), (Nat.ltb_spec j 11); lia.
Qed.

Lemma rate_limit_window_witness :
  fst (handler clockA extOk postNoToken
         (snd (serve clockA (replicate 5 (extOk, postNoToken)) init)))
    = reject 429 "Too many requests, try again later."
  ∧ status (fst (handler clockA extOk postNoToken
                   (snd (serve clockA (replicate 6 (extOk, postNoToken)) init))))
    ≠ 429.
Proof.
  destruct (rate_limit_window clockA clockA_mono) as (_ & Hb & Hc). split.
  - apply (Hb init (replicate 5 (extOk, postNoToken)) extOk postNoToken
             (snd (serve clockA (replicate 5 (extOk, postNoToken)) init))).
    + vm_compute. reflexivity.
    + vm_compute. reflexivity.
    + vm_compute. reflexivity.
    + vm_compute. lia.
  - apply (Hc (replicate 6 (extOk, postNoToken)) extOk postNoToken
             (snd (serve clockA (replicate 6 (extOk, postNoToken)) init))
             1000000).
    + vm_compute. reflexivity.
    + vm_compute. reflexivity.
    + vm_compute. reflexivity.
    + vm_compute. discriminate.
Defined.

(** C2. [markBad(ip)] appends a timestamped bad event and prunes the events
    that are 10 minutes old; once at least 8 events of the IP remain it sets
    a block that expires one hour after the reading of the clock taken by
    [punish]. While the expiry of a block set that way is strictly in the
    future, [isBlocked(ip)] is true and a request of that IP that reaches
    the block check gets the 403 outcome; from the expiry on, the lookup
    evicts the entry, [isBlocked(ip)] is false and the request goes on to
    the later checks. The clock is assumed to be non-negative and not to
    run backwards. *)
Theorem block_after_bad_events (clock : nat → Z)
    (clock_mono : ∀ i j, (i ≤ j)%nat → clock i ≤ clock j)
    (clock_nonneg : ∀ n, 0 ≤ clock n) :
  (∀ ip w,
     let now := clock (tick w) in
     let kept := pruneAt BAD_WINDOW_MS now
                   (badHits w ++ [{| hit_ip := ip; hit_time := now |}]) in
     let w1 := snd (markBad clock ip w) in
     badHits w1 = kept
     ∧ ((8 ≤ countFor ip kept)%nat →
        blocked w1 = <[ip := clock (S (tick w)) + 60 * 60 * 1000]> (blocked w))
     ∧ ((countFor ip kept < 8)%nat → blocked w1 = blocked w))
  ∧ (∀ ip w k,
       blocked w !! ip = Some (clock k + BLOCK_MS) →
       clock (tick w) < clock k + BLOCK_MS →
       fst (isBlocked clock ip w) = true
       ∧ ∀ x req, reachesIpGates req = true → ipOf req = ip →
           fst (handler clock x req w) = reject 403 "IP temporarily blocked.")
  ∧ (∀ ip w k,
       blocked w !! ip = Some (clock k + BLOCK_MS) →
       clock k + BLOCK_MS ≤ clock (tick w) →
       fst (isBlocked clock ip w) = false
       ∧ blocked (snd (isBlocked clock ip w)) = delete ip (blocked w)
       ∧ ∀ x req, reachesIpGates req = true → ipOf req = ip →
           status (fst (handler clock x req w)) ≠ 403).
Proof.
  assert (∀ k, clock k + BLOCK_MS ≠ 0) as Hnz.
  { intros k. pose proof (clock_nonneg k). unfold BLOCK_MS. lia. }
  split; [|split].
  - intros ip w now kept w1. subst w1. rewrite markBad_run. cbv zeta.
    fold now. fold kept. unfold BAD_LIMIT.
    case_bool_decide; cbn [snd badHits blocked set_blocked set_badHits set_tick];
      repeat split; (done || lia).
  - intros ip w k Hb Hlt.
    assert (isBlocked clock ip w = (true, set_tick S w)) as Hrun.
    { rewrite isBlocked_run, Hb.
      rewrite bool_decide_eq_true_2 by apply Hnz.
      by rewrite bool_decide_eq_true_2 by exact Hlt. }
    split; [by rewrite Hrun|].
    intros x req Hg <-. rewrite (handler_ipGates clock x req w Hg). cbv zeta.
    by rewrite Hrun.
  - intros ip w k Hb Hge.
    assert (isBlocked clock ip w =
              (false, set_blocked (delete ip) (set_tick (λ n, S (S n)) w))) as Hrun.
    { rewrite isBlocked_run, Hb.
      rewrite bool_decide_eq_true_2 by apply Hnz.
      rewrite bool_decide_eq_false_2 by lia.
      rewrite bool_decide_eq_true_2; [reflexivity|].
      pose proof (clock_mono (tick w) (S (tick w)) ltac:(lia)). lia. }
    split; [by rewrite Hrun|]. split; [by rewrite Hrun|].
    intros x req Hg <-. rewrite (handler_ipGates clock x req w Hg). cbv zeta.
    rewrite Hrun.
    destruct (rateLimited clock (ipOf req) _) as [[] w2]; [cbn; lia|].
    pose proof (verifyTurnstile_status clock x (ipOf req) (default ∅ (body req)) w2) as Hst.
    unfold statusIn in Hst. intros Heq. rewrite Heq in Hst.
    apply list_elem_of_In in Hst. cbn [In] in Hst. intuition discriminate.
Qed.

Lemma clockB_mono : ∀ i j, (i ≤ j)%nat → clockB i ≤ clockB j.
Proof.
  intros i j Hij. unfold clockB.
  destruct (Nat.ltb_spec i 18), (Nat.ltb_spec j 18); lia.
Qed.

Lemma clockB_nonneg : ∀ n, 0 ≤ clockB n.
Proof. intros n. unfold clockB. destruct (Nat.ltb_spec n 18); lia. Qed.

Lemma block_after_bad_events_witness :
  blocked (snd (markBad clockB ipA
                  (snd (serve clockB (replicate 7 (extOk, postNoToken)) init))))
    !! ipA = Some (clockB 15 + 3600000)
  ∧ fst (handler clockB extOk postNoToken
           (snd (serve clockB (replicate 8 (extOk, postNoToken)) init)))
    = reject 403 "IP temporarily blocked."
  ∧ status (fst (handler clockB extOk postNoToken
                   (snd (serve clockB (replicate 9 (extOk, postNoToken)) init))))
    ≠ 403.
Proof.
  destruct (block_after_bad_events clockB clockB_mono clockB_nonneg)
    as (Ha & Hb & Hc).
  split; [|split].
  - destruct (Ha ipA (snd (serve clockB (replicate 7 (extOk, postNoToken)) init)))
      as (_ & Hset & _).
    rewrite Hset; [vm_compute; reflexivity | vm_compute; lia].
  - apply (Hb ipA (snd (serve clockB (replicate 8 (extOk, postNoToken)) init)) 16%nat).
    + vm_compute. reflexivity.
    + vm_compute. reflexivity.
    + vm_compute. reflexivity.
    + vm_compute. reflexivity.
  - apply (Hc ipA (snd (serve clockB (replicate 9 (extOk, postNoToken)) init)) 16%nat).
    + vm_compute. reflexivity.
    + vm_compute. discriminate.
    + vm_compute. reflexivity.
    + vm_compute. reflexivity.
Defined.

(** C3, as stated, fails: a honeypot field that holds only white space is
    not empty, yet the request is served like any other; here the mail is
    sent and the attempt is recorded in the rate window. *)
Lemma honeypot_blank_counterexample :
  method postBlankHoneypot = lit "POST"
  ∧ isJson postBlankHoneypot = true
  ∧ field (default ∅ (body postBlankHoneypot)) "_gotcha" ≠ []
  ∧ fst (handler clockA extOk postBlankHoneypot init) = json 200 true None
  ∧ isSendMail <$> trace (snd (handler clockA extOk postBlankHoneypot init))
    = [false; false; true]
  ∧ length (hits (snd (handler clockA extOk postBlankHoneypot init))) = 1%nat.
Proof. vm_compute. repeat split; (reflexivity || discriminate). Qed.

(** C3, amended. For every POST request with a JSON content type whose
    honeypot field [_gotcha] is not empty once trimmed, the handler answers
    200 [{ok:true}] and leaves the whole process state as it was: nothing
    is asked of the outside world (no mail, no Turnstile call), no rate
    window entry, no bad event, no block, no reading of the clock. *)
Theorem honeypot_silent_success (clock : nat → Z) (x : Ext) (req : Request) (w : World) :
  method req = lit "POST" →
  isJson req = true →
  trim (field (default ∅ (body req)) "_gotcha") ≠ [] →
  handler clock x req w = (json 200 true None, w).
Proof.
  intros Hm Hj Hg. unfold handler.
  rewrite bool_decide_eq_true_2 by exact Hm. rewrite Hj. cbn [negb]. cbv zeta.
  unfold honeypot.
  destruct (field (default ∅ (body req)) "_gotcha") as [|c g] eqn:Hf; [done|].
  destruct (trim (c :: g)); [done|]. reflexivity.
Qed.

Lemma honeypot_silent_success_witness :
  handler clockA extOk postHoneypot init = (json 200 true None, init).
Proof.
  apply (honeypot_silent_success clockA extOk postHoneypot init).
  - reflexivity.
  - vm_compute. reflexivity.
  - vm_compute. discriminate.
Defined.

(** ** Field validation *)

Section Validation.

Variable clock : nat → Z.

Lemma handler_validation x req w wv :
  validationState clock x req w = Some wv →
  handler clock x req w =
    validate clock x (ipOf req) (default ∅ (body req)) wv.
Proof.
  unfold validationState. intros H.
  destruct (reachesIpGates req) eqn:Hg; [|done].
  rewrite (handler_ipGates clock x req w Hg). revert H. cbv zeta.
  destruct (isBlocked clock (ipOf req) w) as [[] w1]; [done|].
  destruct (rateLimited clock (ipOf req) w1) as [[] w2]; [done|].
  unfold verifyTurnstile.
  destruct (truthy (default ∅ (body req) !! "cf-turnstile-response")); [|done].
  cbn [negb]. cbv zeta. unfold bind at 1. unfold emit, modify.
  destruct (siteverify x _ _ _) as [|[]]; [done| |done].
  by intros [= <-].
Qed.

(** The four rejections of the extra validation and of the email pattern,
    each after [markBad] *)
Lemma validate_email x ip b w :
  let v := normalize b in
  isEmpty (vName v) = false → isEmpty (vEmail v) = false →
  isEmpty (vMessage v) = false →
  matches emailRegex (vEmail v) = false →
  validate clock x ip b w = (reject 400 "Invalid email.", snd (markBad clock ip w)).
Proof.
  intros v H1 H2 H3 H4. unfold validate. fold v.
  rewrite H1, H2, H3, H4. cbn [orb negb]. unfold bind, ret.
  by destruct (markBad clock ip w) as [[] w1].
Qed.

Lemma validate_required x ip b w :
  let v := normalize b in
  isEmpty (vName v) || isEmpty (vEmail v) || isEmpty (vMessage v) = true →
  validate clock x ip b w =
    (reject 400 "name, email and message are required.", w).
Proof. intros v H. unfold validate. fold v. by rewrite H. Qed.


Lemma deliver_status_sent x ip v : yields (statusIn [200; 500]) (deliver x ip v).
Proof.
  unfold deliver.
  repeat first
    [ case_match
    | lazymatch goal with
      | |- yields _ (ret _) =>
          apply yields_ret; unfold statusIn; cbn [status json reject];
          apply list_elem_of_In; cbn [In]; auto
      | |- yields _ (bind _ _) => apply yields_bind; intros ?
      end ].
Qed.

(** Once the required fields are there, every 400 of the validation comes
    after [markBad]. *)
Lemma validate_rejection_marks_bad x ip b w :
  let v := normalize b in
  isEmpty (vName v) || isEmpty (vEmail v) || isEmpty (vMessage v) = false →
  status (fst (validate clock x ip b w)) = 400 →
  snd (validate clock x ip b w) = snd (markBad clock ip w).
Proof.
  intros v Hreq. unfold validate. fold v. rewrite Hreq.
  repeat case_match;
    try (unfold bind, ret; by destruct (markBad clock ip w) as [[] w1]).
  intros H400. pose proof (deliver_status_sent x ip v w) as Hst.
  unfold statusIn in Hst. rewrite H400 in Hst.
  apply list_elem_of_In in Hst. cbn [In] in Hst. intuition discriminate.
Qed.

End Validation.


(** C4, on the code: a submission that Turnstile accepted and that lacks a
    required field is rejected with 400, and no bad event is recorded for
    its IP, where every other rejection of the validation calls [markBad]
    first. *)
Lemma required_fields_no_bad_event :
  validationState clockA extOk postNoName init ≠ None
  ∧ vName (normalize (default ∅ (body postNoName))) = []
  ∧ fst (handler clockA extOk postNoName init)
    = reject 400 "name, email and message are required."
  ∧ badHits (snd (handler clockA extOk postNoName init)) = [].
Proof. vm_compute. repeat split; (reflexivity || discriminate). Qed.

(** C6, as stated, fails: the request reaches field validation with the
    email [not-an-email], and the answer is the error of the required
    fields, because the name is missing. *)
Lemma invalid_email_counterexample :
  validationState clockA extOk postBadEmailNoName init ≠ None
  ∧ vEmail (normalize (default ∅ (body postBadEmailNoName))) = lit "not-an-email"
  ∧ fst (handler clockA extOk postBadEmailNoName init)
    = reject 400 "name, email and message are required."
  ∧ fst (handler clockA extOk postBadEmailNoName init)
    ≠ reject 400 "Invalid email.".
Proof. vm_compute. repeat split; (reflexivity || discriminate). Qed.

(** C6, amended. For every request that reaches field validation with a
    name and a message that are not empty once trimmed, and with an email
    that is not empty and fails the basic pattern (such as [not-an-email]),
    the answer is 400 with the error [Invalid email.], whatever the other
    fields are worth. *)
Theorem invalid_email_rejected (clock : nat → Z) (x : Ext) (req : Request) (w wv : World) :
  let v := normalize (default ∅ (body req)) in
  validationState clock x req w = Some wv →
  vName v ≠ [] → vMessage v ≠ [] → vEmail v ≠ [] →
  matches emailRegex (vEmail v) = false →
  fst (handler clock x req w) = reject 400 "Invalid email.".
Proof.
  intros v Hv Hn Hm He Hre.
  rewrite (handler_validation clock x req w wv Hv).
  rewrite validate_email; [reflexivity| | | |exact Hre].
  - fold v. by destruct (vName v).
  - fold v. by destruct (vEmail v).
  - fold v. by destruct (vMessage v).
Qed.

Lemma invalid_email_rejected_witness :
  vEmail (normalize (default ∅ (body postBadEmail))) = lit "not-an-email"
  ∧ fst (handler clockA extOk postBadEmail init) = reject 400 "Invalid email.".
Proof.
  split; [vm_compute; reflexivity|].
  apply (invalid_email_rejected clockA extOk postBadEmail init
           (default init (validationState clockA extOk postBadEmail init))).
  - vm_compute. reflexivity.
  - vm_compute. discriminate.
  - vm_compute. discriminate.
  - vm_compute. discriminate.
  - vm_compute. reflexivity.
Defined.

(** ** The organization check *)









(** ** Normalised inputs *)

Lemma trimStart_head s c : head (trimStart s) = Some c → isWhiteSpace c = false.
Proof.
  induction s as [|a s IH]; [done|]. cbn [trimStart].
  destruct (isWhiteSpace a) eqn:Ha; [exact IH|].
  cbn. by intros [= <-].
Qed.

Lemma trimStart_snoc s c :
  isWhiteSpace c = false → ∃ s', trimStart (s ++ [c]) = s' ++ [c].
Proof.
  intros Hc. induction s as [|a s IH].
  - exists []. cbn. by rewrite Hc.
  - cbn [app trimStart]. destruct (isWhiteSpace a); [exact IH|].
    by exists (a :: s).
Qed.

Lemma last_rev_head (s : jsstring) : last (rev s) = head s.
Proof. destruct s as [|a s]; [done|]. cbn [rev]. by rewrite last_snoc. Qed.

Lemma head_rev_last (s : jsstring) : head (rev s) = last s.
Proof. rewrite <- (rev_involutive s) at 2. by rewrite last_rev_head. Qed.

Lemma trim_head s c : head (trim s) = Some c → isWhiteSpace c = false.
Proof.
  unfold trim, trimEnd. pose proof (trimStart_head s) as Hs.
  destruct (trimStart s) as [|a t]; [done|].
  specialize (Hs a eq_refl). cbn [rev].
  destruct (trimStart_snoc (rev t) a Hs) as [s' ->].
  rewrite rev_app_distr. cbn. by intros [= <-].
Qed.

Lemma trim_last s c : last (trim s) = Some c → isWhiteSpace c = false.
Proof. unfold trim, trimEnd. rewrite last_rev_head. apply trimStart_head. Qed.





(** ** Order of the checks *)

Section Order.

Variable clock : nat → Z.













End Order.




(** ** Active language *)

Lemma langsInclude_elem v : langsInclude v = true → default [] v ∈ LANGS.
Proof. destruct v as [l|]; [|done]. cbn. apply bool_decide_eq_true_1. Qed.

Lemma langsInclude_truthy v : langsInclude v = true → truthy v = true.
Proof.
  destruct v as [l|]; [|done]. cbn [langsInclude]. intros H.
  apply bool_decide_eq_true_1 in H. destruct l; [|done].
  apply list_elem_of_In in H. vm_compute in H. intuition discriminate.
Qed.

(** C8. The active language is the forced override when it is a supported
    language; otherwise the first segment of the URL path when that is one;
    otherwise the stored preference when that is one; otherwise the
    default. So [detectLang] always answers one of ['en'], ['es'], ['pt'],
    and ['en'] when no source names a supported language. *)
Theorem active_language (p : Page) :
  (langsInclude (forced p) = true → detectLang p = default [] (forced p))
  ∧ (langsInclude (forced p) = false → langsInclude (pathLang p) = true →
     detectLang p = default [] (pathLang p))
  ∧ (langsInclude (forced p) = false → langsInclude (pathLang p) = false →
     langsInclude (saved p) = true → detectLang p = default [] (saved p))
  ∧ (langsInclude (forced p) = false → langsInclude (pathLang p) = false →
     langsInclude (saved p) = false → detectLang p = lit "en")
  ∧ detectLang p ∈ [lit "en"; lit "es"; lit "pt"].
Proof.
  unfold detectLang. repeat split.
  - intros H. by rewrite (langsInclude_truthy _ H), H.
  - intros H1 H2. by rewrite H1, andb_false_r, H2.
  - intros H1 H2 H3. by rewrite H1, andb_false_r, H2, H3.
  - intros H1 H2 H3. by rewrite H1, andb_false_r, H2, H3.
  - destruct (langsInclude (forced p)) eqn:H1.
    + rewrite (langsInclude_truthy _ H1). cbn [andb]. by apply langsInclude_elem.
    + rewrite andb_false_r. destruct (langsInclude (pathLang p)) eqn:H2;
        [by apply langsInclude_elem|].
      destruct (langsInclude (saved p)) eqn:H3; [by apply langsInclude_elem|].
      apply list_elem_of_here.
Qed.

Lemma active_language_witness :
  detectLang pageForcedPt = lit "pt"
  ∧ detectLang pagePathEs = lit "es"
  ∧ detectLang pageSavedPt = lit "pt"
  ∧ detectLang pagePlain = lit "en".
Proof.
  split; [|split; [|split]].
  - destruct (active_language pageForcedPt) as (H & _).
    apply H. vm_compute. reflexivity.
  - destruct (active_language pagePathEs) as (_ & H & _).
    apply H; vm_compute; reflexivity.
  - destruct (active_language pageSavedPt) as (_ & _ & H & _).
    apply H; vm_compute; reflexivity.
  - destruct (active_language pagePlain) as (_ & _ & _ & H & _).
    apply H; vm_compute; reflexivity.
Defined.

(** ** Escaping *)

Lemma replaceAll_cons c by_ u s :
  replaceAll c by_ (u :: s) = (if (u =? c)%N then by_ else [u]) ++ replaceAll c by_ s.
Proof. reflexivity. Qed.

Lemma replaceAll_app c by_ s t :
  replaceAll c by_ (s ++ t) = replaceAll c by_ s ++ replaceAll c by_ t.
Proof. unfold replaceAll. apply bind_app. Qed.

Lemma replaceAll_other c by_ u :
  (u =? c)%N = false → replaceAll c by_ [u] = [u].
Proof. intros H. rewrite replaceAll_cons, H. reflexivity. Qed.

Lemma escapeUnit_run u :
  replaceAll 34 (lit "&quot;")
    (replaceAll 62 (lit "&gt;")
       (replaceAll 60 (lit "&lt;") (if (u =? 38)%N then lit "&amp;" else [u])))
  = escapeUnit u.
Proof.
  unfold escapeUnit.
  destruct (N.eqb_spec u 38) as [->|H38]; [vm_compute; reflexivity|].
  destruct (N.eqb_spec u 60) as [->|H60]; [vm_compute; reflexivity|].
  destruct (N.eqb_spec u 62) as [->|H62]; [vm_compute; reflexivity|].
  destruct (N.eqb_spec u 34) as [->|H34]; [vm_compute; reflexivity|].
  apply N.eqb_neq in H60, H62, H34.
  by rewrite !replaceAll_other.
Qed.

Lemma escapeHtml_cons u s : escapeHtml (u :: s) = escapeUnit u ++ escapeHtml s.
Proof.
  unfold escapeHtml. rewrite replaceAll_cons, !replaceAll_app.
  by rewrite escapeUnit_run.
Qed.

Lemma escapeHtml_nil : escapeHtml [] = [].
Proof. reflexivity. Qed.

Lemma entitiesOnly_escapeUnit u r :
  entitiesOnly r = true → entitiesOnly (escapeUnit u ++ r) = true.
Proof.
  intros Hr. unfold escapeUnit.
  destruct (N.eqb_spec u 38) as [->|H38].
  { change (lit "&amp;") with [38; 97; 109; 112; 59]%N.
    cbn -[lit]. by rewrite Hr. }
  destruct (N.eqb_spec u 60) as [->|H60].
  { change (lit "&lt;") with [38; 108; 116; 59]%N. cbn -[lit]. by rewrite Hr. }
  destruct (N.eqb_spec u 62) as [->|H62].
  { change (lit "&gt;") with [38; 103; 116; 59]%N. cbn -[lit]. by rewrite Hr. }
  destruct (N.eqb_spec u 34) as [->|H34].
  { change (lit "&quot;") with [38; 113; 117; 111; 116; 59]%N.
    cbn -[lit]. by rewrite Hr. }
  apply N.eqb_neq in H38, H60, H62, H34.
  cbn [app entitiesOnly]. by rewrite H38, H60, H62, H34, Hr.
Qed.

Lemma entitiesOnly_escapeHtml s : entitiesOnly (escapeHtml s) = true.
Proof.
  induction s as [|u s IH]; [reflexivity|].
  rewrite escapeHtml_cons. by apply entitiesOnly_escapeUnit.
Qed.

Lemma entitiesOnly_no_markup s c :
  entitiesOnly s = true → c ∈ s → c ≠ 60%N ∧ c ≠ 62%N ∧ c ≠ 34%N.
Proof.
  induction s as [|u s IH]; intros Hs Hin; [by apply elem_of_nil in Hin|].
  cbn [entitiesOnly] in Hs. apply andb_prop in Hs as [Hu Hs].
  apply elem_of_cons in Hin as [->|Hin]; [|by apply IH].
  destruct (N.eqb_spec u 38) as [->|_]; [done|].
  apply andb_prop in Hu as [Hu H34]. apply andb_prop in Hu as [H60 H62].
  apply negb_true_iff, N.eqb_neq in H60, H62, H34. done.
Qed.

Lemma countUnit_app c s t :
  countUnit c (s ++ t) = (countUnit c s + countUnit c t)%nat.
Proof. unfold countUnit. by rewrite filter_app, length_app. Qed.

Lemma countUnit_cons c u s :
  countUnit c (u :: s) = ((if bool_decide (u = c) then 1 else 0) + countUnit c s)%nat.
Proof.
  unfold countUnit. rewrite filter_cons.
  case_decide; case_bool_decide; done.
Qed.

Lemma countUnit_absent c s : c ∉ s → countUnit c s = O.
Proof.
  induction s as [|u s IH]; intros H; [reflexivity|].
  rewrite countUnit_cons. apply not_elem_of_cons in H as [Hne Hs].
  rewrite bool_decide_eq_false_2 by done. by rewrite IH.
Qed.

Lemma countUnit_escapeHtml c s :
  c = 60%N ∨ c = 62%N ∨ c = 34%N → countUnit c (escapeHtml s) = O.
Proof.
  intros Hc. apply countUnit_absent. intros Hin.
  destruct (entitiesOnly_no_markup _ c (entitiesOnly_escapeHtml s) Hin)
    as (? & ? & ?).
  intuition.
Qed.

Lemma countUnit_newline_escapeHtml s :
  countUnit 10 (escapeHtml s) = countUnit 10 s.
Proof.
  induction s as [|u s IH]; [reflexivity|].
  rewrite escapeHtml_cons, countUnit_app, countUnit_cons, IH. f_equal.
  unfold escapeUnit.
  destruct (N.eqb_spec u 38) as [->|?]; [vm_compute; reflexivity|].
  destruct (N.eqb_spec u 60) as [->|?]; [vm_compute; reflexivity|].
  destruct (N.eqb_spec u 62) as [->|?]; [vm_compute; reflexivity|].
  destruct (N.eqb_spec u 34) as [->|?]; [vm_compute; reflexivity|].
  rewrite countUnit_cons. cbn. lia.
Qed.

Lemma countUnit_replaceAll c a by_ s :
  c ≠ a →
  countUnit c (replaceAll a by_ s)
  = (countUnit c by_ * countUnit a s + countUnit c s)%nat.
Proof.
  intros Hne. induction s as [|u s IH]; [cbn; lia|].
  rewrite replaceAll_cons, countUnit_app, IH, !countUnit_cons.
  destruct (N.eqb_spec u a) as [->|Hu].
  - rewrite bool_decide_eq_true_2 by done.
    rewrite bool_decide_eq_false_2 by done. lia.
  - rewrite (bool_decide_eq_false_2 (u = a)) by done.
    rewrite countUnit_cons. cbn [countUnit filter length list_filter]. lia.
Qed.

Lemma countUnit_html c ip v :
  c = 60%N ∨ c = 62%N ∨ c = 34%N →
  countUnit c (composeHtml ip v)
  = (countUnit c (composeHtml [] blankFields)
     + countUnit c (lit "<br>") * countUnit 10 (vMessage v))%nat.
Proof.
  intros Hc. assert (c ≠ 10%N) as Hnl by (intuition; subst; done).
  unfold composeHtml, blankFields. cbn [vName vEmail vOrg vInterest vMessage].
  repeat first [ rewrite countUnit_app | rewrite countUnit_cons ].
  rewrite !(countUnit_replaceAll c 10 _ _ Hnl).
  rewrite !countUnit_newline_escapeHtml.
  rewrite !(countUnit_escapeHtml c _ Hc).
  change (countUnit 10 []) with O. lia.
Qed.

Lemma template_counts :
  countUnit 60 (composeHtml [] blankFields) = 26%nat
  ∧ countUnit 62 (composeHtml [] blankFields) = 26%nat
  ∧ countUnit 34 (composeHtml [] blankFields) = 2%nat
  ∧ countUnit 60 (lit "<br>") = 1%nat
  ∧ countUnit 62 (lit "<br>") = 1%nat
  ∧ countUnit 34 (lit "<br>") = 0%nat.
Proof. vm_compute. repeat split; reflexivity. Qed.

(** C10. For every string, the output of [escapeHtml] holds no [<], no [>]
    and no double quote, and each [&] in it starts one of the entities
    [&amp;], [&lt;], [&gt;], [&quot;]. In the HTML body of the mail the six
    interpolated values (name, email, organization, interest, message, IP)
    all go through [escapeHtml]: whatever they hold, the body has the 26
    [<], the 26 [>] and the 2 double quotes of its template, and one more
    [<br>] for each line break of the message. *)
Theorem escapeHtml_safe :
  (∀ s, entitiesOnly (escapeHtml s) = true)
  ∧ (∀ s, (60%N ∉ escapeHtml s) ∧ (62%N ∉ escapeHtml s) ∧ (34%N ∉ escapeHtml s))
  ∧ (∀ smtpUser contactTo ip v,
       html (composeMail smtpUser contactTo ip v) = composeHtml ip v
       ∧ countUnit 60 (composeHtml ip v) = (26 + countUnit 10 (vMessage v))%nat
       ∧ countUnit 62 (composeHtml ip v) = (26 + countUnit 10 (vMessage v))%nat
       ∧ countUnit 34 (composeHtml ip v) = 2%nat).
Proof.
  split; [exact entitiesOnly_escapeHtml|]. split.
  - intros s. repeat split; intros Hin;
      destruct (entitiesOnly_no_markup _ _ (entitiesOnly_escapeHtml s) Hin)
        as (? & ? & ?); done.
  - intros smtpUser contactTo ip v. split; [reflexivity|].
    rewrite (countUnit_html 60 ip v), (countUnit_html 62 ip v),
      (countUnit_html 34 ip v) by auto.
    destruct template_counts as (-> & -> & -> & -> & -> & ->).
    repeat split; lia.
Qed.

Example escapeHtml_hostile :
  escapeHtml (lit "<a href=" ++ ([34%N] ++ (lit "x" ++ ([34%N] ++ lit ">Tom & Jerry</a>"))))
  = lit "&lt;a href=&quot;x&quot;&gt;Tom &amp; Jerry&lt;/a&gt;"
  ∧ countUnit 60 (composeHtml (lit "<i>") hostileFields) = 27%nat.
Proof. vm_compute. split; reflexivity. Qed.

(** * Further properties of the endpoint *)

(** ** Shape of the answers *)

Ltac shape_step :=
  lazymatch goal with
  | |- yields _ (ret _) =>
      apply yields_ret; unfold wellFormed; cbn [status ok error json reject];
      split; [apply list_elem_of_In; cbn [In]; auto 8 | split; split; done]
  | |- yields _ (bind _ _) => apply yields_bind; intros ?
  end.

Lemma deliver_wellFormed x ip v : yields wellFormed (deliver x ip v).
Proof. unfold deliver. repeat (case_match || shape_step). Qed.

Lemma validate_wellFormed clock x ip b : yields wellFormed (validate clock x ip b).
Proof.
  unfold validate.
  repeat first [ case_match | apply deliver_wellFormed | shape_step ].
Qed.

Lemma verifyTurnstile_wellFormed clock x ip b :
  yields wellFormed (verifyTurnstile clock x ip b).
Proof.
  unfold verifyTurnstile.
  repeat first [ case_match | apply validate_wellFormed | shape_step ].
Qed.

(** X1. Whatever the request, the state and the outside world, the answer
    of the handler has status 200, 400, 403, 405, 429 or 500, says
    [ok:true] exactly when the status is 200, and carries an [error]
    exactly when it does not say [ok:true]. *)
Theorem handler_answer_shape (clock : nat → Z) (x : Ext) (req : Request) (w : World) :
  wellFormed (fst (handler clock x req w)).
Proof.
  revert w. change (yields wellFormed (handler clock x req)). unfold handler.
  repeat first [ case_match | apply verifyTurnstile_wellFormed | shape_step ].
Qed.

(** ** Bounds and isolation of the abuse tracker *)

(** X2. In every state the process reaches from its start, whatever the
    requests, the clock and the outside world, the rate window holds at
    most 5 entries of any IP. *)
Theorem rate_window_bounded (clock : nat → Z) (evs : list (Ext * Request)) (ip : jsstring) :
  (countFor ip (hits (snd (serve clock evs init))) ≤ 5)%nat.
Proof. apply (serve_withinLimit clock evs init init_withinLimit ip). Qed.

Section Isolation.

Variable clock : nat → Z.
Variable other : jsstring.

Lemma keepsBlock_refl w : keepsBlock other w w.
Proof. reflexivity. Qed.

Lemma keepsBlock_trans w1 w2 w3 :
  keepsBlock other w1 w2 → keepsBlock other w2 w3 → keepsBlock other w1 w3.
Proof. unfold keepsBlock. congruence. Qed.

Lemma markBad_keepsBlock ip : ip ≠ other → stable (keepsBlock other) (markBad clock ip).
Proof.
  intros Hne w. unfold keepsBlock. rewrite markBad_run. cbv zeta.
  case_bool_decide; cbn [snd blocked set_blocked set_badHits set_tick];
    [by rewrite lookup_insert_ne | reflexivity].
Qed.

Lemma isBlocked_keepsBlock ip : ip ≠ other → stable (keepsBlock other) (isBlocked clock ip).
Proof.
  intros Hne w. unfold keepsBlock. rewrite isBlocked_run.
  repeat case_match; cbn [snd blocked set_blocked set_tick];
    try reflexivity. by rewrite lookup_delete_ne.
Qed.

Lemma rateLimited_keepsBlock ip : stable (keepsBlock other) (rateLimited clock ip).
Proof.
  intros w. unfold keepsBlock. rewrite rateLimited_run. cbv zeta.
  case_bool_decide; reflexivity.
Qed.

Lemma emit_keepsBlock e : stable (keepsBlock other) (emit e).
Proof. intros w. reflexivity. Qed.

Ltac block_step :=
  lazymatch goal with
  | |- stable _ (ret _) => apply stable_ret; apply keepsBlock_refl
  | |- stable _ (markBad _ _) => by apply markBad_keepsBlock
  | |- stable _ (isBlocked _ _) => by apply isBlocked_keepsBlock
  | |- stable _ (rateLimited _ _) => apply rateLimited_keepsBlock
  | |- stable _ (emit _) => apply emit_keepsBlock
  | |- stable _ (bind _ _) =>
      apply (stable_bind (keepsBlock other) keepsBlock_trans); [|intros ?]
  end.

Lemma deliver_keepsBlock x ip v : stable (keepsBlock other) (deliver x ip v).
Proof. unfold deliver. repeat (case_match || block_step). Qed.

Lemma validate_keepsBlock x ip b :
  ip ≠ other → stable (keepsBlock other) (validate clock x ip b).
Proof.
  intros Hne. unfold validate.
  repeat first [ case_match | apply deliver_keepsBlock | block_step ].
Qed.

Lemma verifyTurnstile_keepsBlock x ip b :
  ip ≠ other → stable (keepsBlock other) (verifyTurnstile clock x ip b).
Proof.
  intros Hne. unfold verifyTurnstile.
  repeat first [ case_match | by apply validate_keepsBlock | block_step ].
Qed.

Lemma handler_keepsBlock x req :
  ipOf req ≠ other → stable (keepsBlock other) (handler clock x req).
Proof.
  intros Hne. unfold handler. cbv zeta.
  repeat first [ case_match | by apply verifyTurnstile_keepsBlock | block_step ].
Qed.

Lemma noMoreHits_refl w : noMoreHits other w w.
Proof. unfold noMoreHits. lia. Qed.

Lemma noMoreHits_trans w1 w2 w3 :
  noMoreHits other w1 w2 → noMoreHits other w2 w3 → noMoreHits other w1 w3.
Proof. unfold noMoreHits. lia. Qed.

Lemma keepsHits_noMoreHits w w' : keepsHits w w' → noMoreHits other w w'.
Proof. intros [H _]. unfold noMoreHits. rewrite H. lia. Qed.

Lemma handler_noMoreHits x req :
  ipOf req ≠ other → stable (noMoreHits other) (handler clock x req).
Proof.
  intros Hne w. destruct (reachesIpGates req) eqn:Hg.
  2:{ rewrite (handler_early clock x req w Hg). apply noMoreHits_refl. }
  rewrite (handler_ipGates clock x req w Hg). cbv zeta.
  pose proof (isBlocked_keepsHits clock (ipOf req) w) as [Hh _].
  destruct (isBlocked clock (ipOf req) w) as [[] w1]; cbn [snd] in *.
  { unfold noMoreHits. rewrite Hh. lia. }
  rewrite rateLimited_run. cbv zeta. unfold noMoreHits.
  case_bool_decide as Hc; cbn [snd].
  - cbn [hits set_hits]. rewrite Hh. apply countFor_prune_le.
  - match goal with |- context [verifyTurnstile clock x ?i ?b ?w2] =>
      pose proof (verifyTurnstile_keepsHits clock x i b w2) as [Hvh _];
      destruct (verifyTurnstile clock x i b w2) as [r w3] end.
    cbn [snd hits set_hits set_tick] in *. rewrite Hvh, countFor_app.
    cbn [hit_ip]. rewrite bool_decide_eq_false_2 by done.
    rewrite Nat.add_0_r, Hh. apply countFor_prune_le.
Qed.

End Isolation.

(** X3. A request never touches the block entry of an IP other than its
    own: it neither blocks nor unblocks anybody else. *)
Theorem block_isolated (clock : nat → Z) (x : Ext) (req : Request) (w : World) (other : jsstring) :
  ipOf req ≠ other →
  blocked (snd (handler clock x req w)) !! other = blocked w !! other.
Proof. intros Hne. by apply handler_keepsBlock. Qed.

Lemma block_isolated_witness :
  blocked (snd (handler clockB extOk postNoToken
                  (snd (serve clockB (replicate 7 (extOk, postNoToken)) init))))
    !! ipB = None.
Proof.
  rewrite (block_isolated clockB extOk postNoToken _ ipB).
  - vm_compute. reflexivity.
  - vm_compute. discriminate.
Defined.

(** X4. A request never adds to the rate window of an IP other than its
    own: the number of entries another IP has there can only go down, so
    nobody is rate limited because of somebody else's requests. *)
Theorem rate_window_isolated (clock : nat → Z) (x : Ext) (req : Request) (w : World) (other : jsstring) :
  ipOf req ≠ other →
  (countFor other (hits (snd (handler clock x req w))) ≤ countFor other (hits w))%nat.
Proof. intros Hne. by apply handler_noMoreHits. Qed.

Lemma rate_window_isolated_witness :
  (countFor ipB (hits (snd (handler clockA extOk postNoToken init))) ≤ 0)%nat.
Proof.
  apply (rate_window_isolated clockA extOk postNoToken init ipB).
  vm_compute. discriminate.
Defined.

(** X5. While an IP is blocked, a request of that IP that gets to the block
    check is answered 403 and changes nothing but the count of clock
    readings: no rate-window entry, no bad event, no change of the expiry
    (the block is not extended), nothing asked of the outside world. *)
Theorem blocked_request_inert (clock : nat → Z) (x : Ext) (req : Request) (w : World) (u : Z) :
  reachesIpGates req = true →
  blocked w !! ipOf req = Some u → u ≠ 0 → clock (tick w) < u →
  handler clock x req w = (reject 403 "IP temporarily blocked.", set_tick S w).
Proof.
  intros Hg Hb Hu Hlt. rewrite (handler_ipGates clock x req w Hg). cbv zeta.
  rewrite isBlocked_run, Hb.
  rewrite bool_decide_eq_true_2 by done.
  by rewrite bool_decide_eq_true_2 by done.
Qed.

Lemma blocked_request_inert_witness :
  handler clockB extOk postGood
    (snd (serve clockB (replicate 8 (extOk, postNoToken)) init))
  = (reject 403 "IP temporarily blocked.",
     set_tick S (snd (serve clockB (replicate 8 (extOk, postNoToken)) init))).
Proof.
  apply (blocked_request_inert clockB extOk postGood _ (clockB 16 + 3600000)).
  - vm_compute. reflexivity.
  - vm_compute. reflexivity.
  - vm_compute. discriminate.
  - vm_compute. reflexivity.
Defined.

(** ** What a request does to the denylist and to the bad events *)

Section Abuse.

Variable clock : nat → Z.

Lemma sameAbuse_refl w : sameAbuse w w.
Proof. unfold sameAbuse. auto. Qed.

Lemma sameAbuse_trans w1 w2 w3 : sameAbuse w1 w2 → sameAbuse w2 w3 → sameAbuse w1 w3.
Proof. intros (? & ? & ?) (? & ? & ?). repeat split; [congruence..|lia]. Qed.

Lemma emit_sameAbuse e : stable sameAbuse (emit e).
Proof. intros w. unfold sameAbuse. cbn. auto. Qed.

Ltac abuse_step :=
  lazymatch goal with
  | |- stable _ (ret _) => apply stable_ret; apply sameAbuse_refl
  | |- stable _ (emit _) => apply emit_sameAbuse
  | |- stable _ (bind _ _) =>
      apply (stable_bind sameAbuse sameAbuse_trans); [|intros ?]
  end.

Lemma deliver_sameAbuse x ip v : stable sameAbuse (deliver x ip v).
Proof. unfold deliver. repeat (case_match || abuse_step). Qed.

(** Field validation calls [markBad] once, first, or not at all. *)
Lemma validate_abuse x ip b w :
  sameAbuse w (snd (validate clock x ip b w))
  ∨ sameAbuse (snd (markBad clock ip w)) (snd (validate clock x ip b w)).
Proof.
  unfold validate.
  repeat case_match;
    try (right; unfold bind, ret; destruct (markBad clock ip w) as [[] w1];
         apply sameAbuse_refl).
  - left. apply sameAbuse_refl.
  - left. apply deliver_sameAbuse.
Qed.

Lemma verifyTurnstile_abuse x ip b w :
  ∃ w0, sameAbuse w w0
        ∧ (sameAbuse w0 (snd (verifyTurnstile clock x ip b w))
           ∨ sameAbuse (snd (markBad clock ip w0))
               (snd (verifyTurnstile clock x ip b w))).
Proof.
  unfold verifyTurnstile. cbv zeta.
  destruct (negb (truthy (b !! "cf-turnstile-response"))).
  { exists w. split; [apply sameAbuse_refl|]. right.
    unfold bind, ret. destruct (markBad clock ip w) as [[] w1].
    apply sameAbuse_refl. }
  unfold bind at 1. unfold emit at 1, modify.
  set (w0 := set_trace _ w). exists w0.
  split; [unfold sameAbuse; cbn; auto|].
  destruct (siteverify x _ _ ip) as [msg|[]].
  - left. unfold bind, ret, emit, modify, sameAbuse. cbn. auto.
  - apply validate_abuse.
  - right. unfold bind, ret, emit, modify. subst w0.
    destruct (markBad clock ip _) as [[] w1]. unfold sameAbuse. cbn. auto.
Qed.

(** The whole handler: the lookup of the denylist may evict the entry of
    the caller, and then [markBad] runs at most once, for the caller. *)
Lemma handler_abuse x req w :
  ∃ w0,
    (blocked w0 = blocked w ∨ blocked w0 = delete (ipOf req) (blocked w))
    ∧ badHits w0 = badHits w
    ∧ (tick w ≤ tick w0)%nat
    ∧ (sameAbuse w0 (snd (handler clock x req w))
       ∨ sameAbuse (snd (markBad clock (ipOf req) w0))
           (snd (handler clock x req w))).
Proof.
  destruct (reachesIpGates req) eqn:Hg.
  2:{ rewrite (handler_early clock x req w Hg). exists w.
      split; [by left|]. split; [done|]. split; [done|].
      left. apply sameAbuse_refl. }
  rewrite (handler_ipGates clock x req w Hg). cbv zeta.
  assert (∃ w1 blk, isBlocked clock (ipOf req) w = (blk, w1)
            ∧ (blocked w1 = blocked w ∨ blocked w1 = delete (ipOf req) (blocked w))
            ∧ badHits w1 = badHits w ∧ (tick w ≤ tick w1)%nat)
    as (w1 & blk & -> & Hb1 & Hh1 & Ht1).
  { rewrite isBlocked_run. repeat case_match; eexists _, _;
      (split; [reflexivity|]); cbn; auto with lia. }
  destruct blk.
  { exists w1. split; [done|]. split; [done|]. split; [done|].
    left. apply sameAbuse_refl. }
  rewrite rateLimited_run. cbv zeta. case_bool_decide.
  { exists w1. split; [done|]. split; [done|]. split; [done|].
    left. unfold sameAbuse. cbn. auto with lia. }
  match goal with |- context [verifyTurnstile clock x ?i ?b ?w2] =>
    destruct (verifyTurnstile_abuse x i b w2) as (w0 & (Hb0 & Hh0 & Ht0) & Hrest) end.
  exists w0. cbn [blocked badHits tick set_hits set_tick] in Hb0, Hh0, Ht0.
  split; [by rewrite Hb0|]. split; [by rewrite Hh0|]. split; [lia|].
  exact Hrest.
Qed.

End Abuse.

(** X6. An invocation sets or changes the expiry of a block only for the IP
    of its request, and only when, after its bad event is recorded, at
    least 8 bad events of that IP are left, all less than 10 minutes older
    than that event. *)
Theorem block_only_after_bad_events (clock : nat → Z) (x : Ext) (req : Request)
    (w : World) (ip : jsstring) (u : Z) :
  blocked (snd (handler clock x req w)) !! ip = Some u →
  blocked w !! ip ≠ Some u →
  ip = ipOf req
  ∧ (8 ≤ countFor ip (badHits (snd (handler clock x req w))))%nat
  ∧ ∃ now, {| hit_ip := ip; hit_time := now |} ∈ badHits (snd (handler clock x req w))
           ∧ ∀ h, h ∈ badHits (snd (handler clock x req w)) →
                  now - hit_time h < 10 * 60 * 1000.
Proof.
  intros Hnew Hold.
  destruct (handler_abuse clock x req w) as (w0 & Hb0 & Hh0 & _ & Hw').
  assert (blocked w0 !! ip ≠ Some u) as Hold0.
  { destruct Hb0 as [->| ->]; [done|].
    intros Hd. apply lookup_delete_Some in Hd as [_ Hd]. done. }
  destruct Hw' as [(Hb & Hh & _)|(Hb & Hh & _)].
  { by rewrite Hb in Hnew. }
  rewrite Hb in Hnew. rewrite Hh. clear Hb Hh.
  revert Hnew. rewrite markBad_run. cbv zeta.
  unfold BAD_LIMIT. case_bool_decide as Hc;
    cbn [snd blocked badHits set_blocked set_badHits set_tick]; [|done].
  intros Hnew. destruct (decide (ipOf req = ip)) as [<-|Hne].
  2:{ by rewrite lookup_insert_ne in Hnew. }
  split; [done|]. split; [exact Hc|].
  exists (clock (tick w0)). split.
  - unfold pruneAt. apply list_elem_of_filter. split.
    + cbn [hit_time]. unfold BAD_WINDOW_MS. lia.
    + apply elem_of_app. right. apply list_elem_of_singleton. reflexivity.
  - intros h Hin. unfold pruneAt in Hin. apply list_elem_of_filter in Hin as [Hin _].
    exact Hin.
Qed.

Lemma block_only_after_bad_events_witness :
  (8 ≤ countFor ipA
         (badHits (snd (handler clockB extOk postNoToken
                          (snd (serve clockB (replicate 7 (extOk, postNoToken)) init))))))%nat.
Proof.
  destruct (block_only_after_bad_events clockB extOk postNoToken
              (snd (serve clockB (replicate 7 (extOk, postNoToken)) init))
              ipA (clockB 16 + 3600000)) as (_ & H & _).
  - vm_compute. reflexivity.
  - vm_compute. discriminate.
  - exact H.
Defined.

(** ** What is asked of the relay, and when *)

Lemma logged_trace es w : trace (logged es w) = trace w ++ es.
Proof.
  revert w. induction es as [|e es IH]; intros w; cbn [logged foldl].
  - by rewrite app_nil_r.
  - fold (logged es (set_trace (λ t, t ++ [e]) w)). rewrite IH.
    cbn [trace set_trace]. by rewrite <- app_assoc.
Qed.

Lemma newEvents_logged es w : newEvents w (logged es w) = es.
Proof. unfold newEvents. rewrite logged_trace. by rewrite drop_app_length. Qed.



Section Relay.

Variable clock : nat → Z.














End Relay.

Section Accepting.

Variable clock : nat → Z.



End Accepting.






(** ** The gibberish heuristic *)

Lemma matches_none s : matches RNone s = false.
Proof. induction s as [|c s IH]; [reflexivity | exact IH]. Qed.

Lemma deriv_atLeast p n c :
  deriv c (RAtLeast n (RClass p)) =
    if p c then RAtLeast (pred n) (RClass p) else RNone.
Proof.
  destruct n as [|n]; cbn [RAtLeast deriv nullable pred].
  - by destruct (p c).
  - destruct (p c); [|reflexivity]. by destruct n.
Qed.

(** [r{n,}] over a character class, between [^] and [$] *)
Lemma matches_atLeast p n s :
  matches (RAtLeast n (RClass p)) s = true ↔
    (n ≤ length s)%nat ∧ Forall (λ c, p c = true) s.
Proof.
  revert n. induction s as [|c s IH]; intros n.
  - cbn [matches length]. destruct n; cbn [RAtLeast nullable].
    + split; [intros _; split; [lia | constructor] | done].
    + split; [done | intros [? _]; lia].
  - cbn [matches length]. rewrite deriv_atLeast.
    destruct (p c) eqn:Hp.
    + rewrite IH. rewrite Forall_cons. split.
      * intros [? ?]. repeat split; [lia|done|done].
      * intros (? & ? & ?). split; [lia|done].
    + rewrite matches_none. split; [done|].
      intros [_ H]. apply Forall_cons in H as [H _]. congruence.
Qed.

Lemma filter_none {A} (P : A → Prop) `{∀ x, Decision (P x)} (l : list A) :
  (∀ x, x ∈ l → ¬ P x) → filter P l = [].
Proof.
  induction l as [|a l IH]; intros Hl; [reflexivity|].
  rewrite filter_cons, decide_False by (apply Hl; left).
  apply IH. intros x Hx. apply Hl. by right.
Qed.

Lemma filter_some {A} (P : A → Prop) `{∀ x, Decision (P x)} (l : list A) :
  filter P l ≠ [] → ∃ x, x ∈ l ∧ P x.
Proof.
  intros Hne. destruct (filter P l) as [|x l'] eqn:Hf; [done|].
  exists x. assert (x ∈ filter P l) as Hx by (rewrite Hf; left).
  apply list_elem_of_filter in Hx as [? ?]. done.
Qed.

Lemma length_filter_all {A} (P : A → Prop) `{∀ x, Decision (P x)} (l : list A) :
  length (filter P l) = length l → ∀ x, x ∈ l → P x.
Proof.
  induction l as [|a l IH]; intros Hlen x Hx; [by apply elem_of_nil in Hx|].
  rewrite filter_cons in Hlen. destruct (decide (P a)) as [Ha|Ha].
  - cbn [length] in Hlen. apply elem_of_cons in Hx as [->|Hx]; [done|].
    apply IH; [lia | done].
  - pose proof (length_filter P l). cbn [length] in Hlen. lia.
Qed.

(** X9. What every text that passes the gibberish heuristic has: an ASCII
    vowel, an ASCII letter that is not a vowel, vowels making between 15%
    and 70% of its ASCII letters, and it is not a run of 20 or more
    characters of the base64 alphabet. In particular a text without any
    ASCII vowel (digits only, or written in another script) is always
    taken for gibberish. *)
Theorem looksGibberish_false (s : jsstring) :
  looksGibberish s = false →
  (∃ c, c ∈ s ∧ isVowel c = true)
  ∧ (∃ c, c ∈ s ∧ isOtherLetter c = true)
  ∧ (let letters := filter (λ c, isLetter c) s in
     let vowels := filter (λ c, isVowel c) letters in
     3 * length letters ≤ 20 * length vowels
     ∧ 10 * length vowels ≤ 7 * length letters)%nat
  ∧ ¬ ((20 ≤ length s)%nat ∧ Forall (λ c, isBase64 c = true) s).
Proof.
  unfold looksGibberish. cbv zeta.
  remember (filter (λ c, isLetter c) s) as t eqn:Et.
  destruct t as [|c0 t0]; [done|].
  set (t := c0 :: t0) in *.
  assert (t ≠ []) as Hne by done. clearbody t.
  set (vow := filter (λ c, isVowel c) t).
  case_bool_decide as H1; [done|]. case_bool_decide as H2; [done|].
  cbn [orb]. destruct (test consonantRunRe t); [done|].
  destruct (matches base64Re s) eqn:Hb; [done|]. intros _.
  assert (vow ≠ []) as Hv.
  { intros Hv. unfold vow in *. rewrite Hv in H1. cbn [length] in H1.
    destruct t; [done|]. cbn [length] in H1. lia. }
  assert (length vow ≠ length t) as Hlt.
  { intros Heq. rewrite Heq in H2. destruct t; [done|].
    cbn [length] in H2. lia. }
  repeat split.
  - destruct (filter_some _ _ Hv) as (c & Hc & Hcv). exists c.
    split; [|by apply Is_true_true].
    rewrite Et in Hc. apply list_elem_of_filter in Hc as [_ Hc]. exact Hc.
  - destruct (decide (Forall (λ c, isVowel c) t)) as [Ha|Ha].
    + exfalso. apply Hlt. unfold vow. f_equal.
      clear -Ha. induction t as [|a t IH]; [reflexivity|].
      apply Forall_cons in Ha as [Ha Ht]. rewrite filter_cons, decide_True by done.
      by rewrite IH.
    + apply not_Forall_Exists in Ha; [|apply _]. apply Exists_exists in Ha
        as (c & Hc & Hnv). exists c. rewrite Et in Hc.
      apply list_elem_of_filter in Hc as [Hl Hc]. split; [exact Hc|].
      unfold isOtherLetter. apply Is_true_true in Hl. rewrite Hl. cbn [andb].
      unfold compose in Hnv. destruct (isVowel c); [exfalso; by apply Hnv | reflexivity].
  - lia.
  - lia.
  - intros [Hlen Hall]. unfold base64Re in Hb.
    assert (matches (RAtLeast 20 (RClass isBase64)) s = true) as Hm
      by (apply matches_atLeast; done).
    congruence.
Qed.

Lemma looksGibberish_false_witness :
  ∃ c, c ∈ lit "Jane Doe" ∧ isVowel c = true.
Proof.
  destruct (looksGibberish_false (lit "Jane Doe")) as (H & _).
  - vm_compute. reflexivity.
  - exact H.
Defined.

(** X10. A text of 20 or more characters that are all letters, digits,
    [+], [/] or [=] is always taken for gibberish, whatever its letters. *)
Theorem looksGibberish_base64 (s : jsstring) :
  (20 ≤ length s)%nat → Forall (λ c, isBase64 c = true) s →
  looksGibberish s = true.
Proof.
  intros Hlen Hall.
  assert (matches base64Re s = true) as Hm by (by apply matches_atLeast).
  unfold looksGibberish. cbv zeta.
  destruct (filter (λ c, isLetter c) s) as [|c0 t0]; [reflexivity|].
  destruct (_ || _); [reflexivity|].
  destruct (test consonantRunRe (c0 :: t0)); [reflexivity|].
  by rewrite Hm.
Qed.

Lemma looksGibberish_base64_witness :
  looksGibberish (lit "VGhpcyBpcyBhIHJhbmRvbSBibG9iIQ==") = true.
Proof.
  apply looksGibberish_base64.
  - vm_compute. lia.
  - vm_compute. repeat constructor.
Defined.

(** ** Escaping, again *)

Lemma escapeHtml_app s t : escapeHtml (s ++ t) = escapeHtml s ++ escapeHtml t.
Proof. unfold escapeHtml. by rewrite !replaceAll_app. Qed.

Lemma escapeUnit_cases u :
  (u = 38%N ∧ escapeUnit u = [38; 97; 109; 112; 59]%N)
  ∨ (u = 60%N ∧ escapeUnit u = [38; 108; 116; 59]%N)
  ∨ (u = 62%N ∧ escapeUnit u = [38; 103; 116; 59]%N)
  ∨ (u = 34%N ∧ escapeUnit u = [38; 113; 117; 111; 116; 59]%N)
  ∨ (isMarkup u = false ∧ escapeUnit u = [u]).
Proof.
  unfold escapeUnit, isMarkup.
  destruct (N.eqb_spec u 38) as [->|?]; [left; split; [done | by vm_compute]|].
  destruct (N.eqb_spec u 60) as [->|?];
    [right; left; split; [done | by vm_compute]|].
  destruct (N.eqb_spec u 62) as [->|?];
    [right; right; left; split; [done | by vm_compute]|].
  destruct (N.eqb_spec u 34) as [->|?];
    [right; right; right; left; split; [done | by vm_compute]|].
  by repeat right.
Qed.

Lemma escapeHtml_injective s : ∀ t, escapeHtml s = escapeHtml t → s = t.
Proof.
  induction s as [|u s IH]; intros [|u' t].
  - done.
  - rewrite escapeHtml_cons, escapeHtml_nil.
    destruct (escapeUnit_cases u') as [[_ ->]|[[_ ->]|[[_ ->]|[[_ ->]|[_ ->]]]]];
      discriminate.
  - rewrite escapeHtml_cons, escapeHtml_nil.
    destruct (escapeUnit_cases u) as [[_ ->]|[[_ ->]|[[_ ->]|[[_ ->]|[_ ->]]]]];
      discriminate.
  - rewrite !escapeHtml_cons. intros H.
    enough (u = u' ∧ escapeHtml s = escapeHtml t) as [-> Hr]
      by (f_equal; by apply IH).
    revert H. unfold isMarkup in *.
    destruct (escapeUnit_cases u) as [[-> ->]|[[-> ->]|[[-> ->]|[[-> ->]|[Hu ->]]]]];
    destruct (escapeUnit_cases u') as [[-> ->]|[[-> ->]|[[-> ->]|[[-> ->]|[Hu' ->]]]]];
      cbn [app]; intros H; try discriminate H;
      try (injection H as ?; subst; try discriminate; done).
Qed.

Lemma escapeHtml_length s : (length s ≤ length (escapeHtml s))%nat.
Proof.
  induction s as [|u s IH]; [reflexivity|].
  rewrite escapeHtml_cons, length_app. cbn [length].
  destruct (escapeUnit_cases u) as [[_ ->]|[[_ ->]|[[_ ->]|[[_ ->]|[_ ->]]]]];
    cbn [length]; lia.
Qed.

Lemma escapeHtml_plain s :
  Forall (λ c, isMarkup c = false) s → escapeHtml s = s.
Proof.
  induction 1 as [|u s Hu _ IH]; [reflexivity|].
  rewrite escapeHtml_cons, IH.
  destruct (escapeUnit_cases u) as [[-> _]|[[-> _]|[[-> _]|[[-> _]|[_ ->]]]]];
    done.
Qed.

Lemma escapeHtml_longer s :
  ¬ Forall (λ c, isMarkup c = false) s → (length s < length (escapeHtml s))%nat.
Proof.
  induction s as [|u s IH]; intros Hn; [by destruct Hn|].
  rewrite escapeHtml_cons, length_app. cbn [length].
  pose proof (escapeHtml_length s) as Hl.
  destruct (escapeUnit_cases u) as [[_ ->]|[[_ ->]|[[_ ->]|[[_ ->]|[Hu ->]]]]];
    cbn [length]; try lia.
  assert (¬ Forall (λ c, isMarkup c = false) s) as Hs
    by (intros Hs; apply Hn; by constructor).
  specialize (IH Hs). lia.
Qed.

(** X11. [escapeHtml] loses nothing and works piece by piece: two
    different strings never have the same escaped form, the escaped form
    of a concatenation is the concatenation of the escaped forms, the
    result is never shorter than the input, and it is the input itself
    exactly when the input holds none of [&], [<], [>] and the double
    quote. *)
Theorem escapeHtml_faithful :
  (∀ s t, escapeHtml s = escapeHtml t → s = t)
  ∧ (∀ s t, escapeHtml (s ++ t) = escapeHtml s ++ escapeHtml t)
  ∧ (∀ s, (length s ≤ length (escapeHtml s))%nat)
  ∧ (∀ s, escapeHtml s = s ↔ Forall (λ c, isMarkup c = false) s).
Proof.
  split; [exact escapeHtml_injective|]. split; [exact escapeHtml_app|].
  split; [exact escapeHtml_length|].
  intros s. split; [|apply escapeHtml_plain].
  intros Heq. destruct (decide (Forall (λ c, isMarkup c = false) s)) as [|Hn];
    [done|].
  apply escapeHtml_longer in Hn. rewrite Heq in Hn. lia.
Qed.

(** ** Trimming, again *)

Lemma trimStart_split s :
  ∃ a, s = a ++ trimStart s ∧ Forall (λ c, isWhiteSpace c = true) a.
Proof.
  induction s as [|c s (a & Hs & Ha)]; [by exists []|].
  cbn [trimStart]. destruct (isWhiteSpace c) eqn:Hc.
  - exists (c :: a). split; [cbn; by f_equal | by constructor].
  - by exists [].
Qed.

Lemma trimEnd_split s :
  ∃ b, s = trimEnd s ++ b ∧ Forall (λ c, isWhiteSpace c = true) b.
Proof.
  unfold trimEnd. destruct (trimStart_split (rev s)) as (a & Hs & Ha).
  exists (rev a). split.
  - rewrite <- rev_app_distr, <- Hs. by rewrite rev_involutive.
  - apply Forall_forall. intros c Hc. rewrite Forall_forall in Ha.
    apply Ha. apply list_elem_of_In. apply in_rev. by apply list_elem_of_In.
Qed.

Lemma trimStart_fixed s :
  (∀ c, head s = Some c → isWhiteSpace c = false) → trimStart s = s.
Proof. destruct s as [|c s]; [done|]. intros H. cbn. by rewrite (H c eq_refl). Qed.

Lemma trimEnd_fixed s :
  (∀ c, last s = Some c → isWhiteSpace c = false) → trimEnd s = s.
Proof.
  intros H. unfold trimEnd. rewrite trimStart_fixed; [apply rev_involutive|].
  intros c. rewrite head_rev_last. apply H.
Qed.


(** ** The caller's address *)

Lemma split_head_plain h :
  44%N ∉ h → head (split 44 h) = Some h.
Proof.
  induction h as [|c h IH]; intros Hn; [reflexivity|].
  apply not_elem_of_cons in Hn as [Hc Hh]. cbn [split].
  rewrite (proj2 (N.eqb_neq c 44)) by done.
  specialize (IH Hh). destruct (split 44 h) as [|p ps]; [done|].
  cbn in *. by injection IH as ->.
Qed.

Lemma split_head_comma h rest :
  44%N ∉ h → head (split 44 (h ++ 44%N :: rest)) = Some h.
Proof.
  induction h as [|c h IH]; intros Hn.
  - cbn [app split]. by rewrite N.eqb_refl.
  - apply not_elem_of_cons in Hn as [Hc Hh]. cbn [app split].
    rewrite (proj2 (N.eqb_neq c 44)) by done.
    specialize (IH Hh). destruct (split 44 (h ++ 44%N :: rest)) as [|p ps]; [done|].
    cbn in *. by injection IH as ->.
Qed.

(** X13. The address a request is filed under is never the empty string.
    It is the first comma-separated entry of [x-forwarded-for], trimmed,
    whenever that entry is not blank, whatever the socket says; without
    that header it is the address of the socket, and [unknown] when there
    is none. *)
Theorem ipOf_shape (req : Request) :
  ipOf req ≠ []
  ∧ (∀ h rest,
       headers req !! "x-forwarded-for" = Some (h ++ rest) →
       44%N ∉ h → rest = [] ∨ head rest = Some 44%N →
       trim h ≠ [] → ipOf req = trim h)
  ∧ (headers req !! "x-forwarded-for" = None →
     ipOf req = orLit (remoteAddress req) (lit "unknown")).
Proof.
  unfold ipOf. cbv zeta. split; [|split].
  - unfold orLit. destruct (truthy _) eqn:Ht; [|done].
    revert Ht. destruct (jsor _ _) as [[|c s]|]; done.
  - intros h rest Hh Hn Hrest Ht. rewrite Hh. cbn [fmap option_fmap option_map].
    assert (head (split 44 (h ++ rest)) = Some h) as ->.
    { destruct Hrest as [->|Hr].
      - rewrite app_nil_r. by apply split_head_plain.
      - destruct rest as [|c rest]; [done|]. injection Hr as ->.
        by apply split_head_comma. }
    change (default [] (Some h)) with h. unfold jsor, orLit.
    destruct (trim h) as [|c s] eqn:Hth; [done|]. reflexivity.
  - intros Hh. rewrite Hh. reflexivity.
Qed.

Lemma ipOf_shape_witness : ipOf postGood = lit "203.0.113.7".
Proof.
  destruct (ipOf_shape postGood) as (_ & H & _).
  rewrite (H (lit "203.0.113.7") (lit ", 10.0.0.1")).
  - vm_compute. reflexivity.
  - vm_compute. reflexivity.
  - vm_compute. intros Hin. apply list_elem_of_In in Hin. cbn in Hin.
    intuition discriminate.
  - right. vm_compute. reflexivity.
  - vm_compute. discriminate.
Defined.

(** ** The language switch *)

Lemma pathLang_segment p t :
  pathname p = 47%N :: t ++ [47%N] → t ≠ [] → 47%N ∉ t → pathLang p = Some t.
Proof.
  intros Hp Hne Hn. unfold pathLang. rewrite Hp. cbn [split].
  rewrite N.eqb_refl.
  assert (split 47 (t ++ [47%N]) = [t; []]) as ->.
  { clear Hp Hne. induction t as [|c t IH].
    - cbn. reflexivity.
    - apply not_elem_of_cons in Hn as [Hc Ht]. cbn [app split].
      rewrite (proj2 (N.eqb_neq c 47)) by done. by rewrite (IH Ht). }
  rewrite filter_cons, decide_False by (intros H; by apply H).
  rewrite filter_cons, decide_True by done. reflexivity.
Qed.

(** X14. The toggle button names the language a click on it switches to.
    A click that targets Spanish or Portuguese navigates to a page on which
    [detectLang] finds that language, unless a supported override is forced
    there. A click that targets English navigates to [/], where, without a
    supported override, the language found is the stored preference when
    it is supported, and English only otherwise. *)
Theorem language_switch :
  (∀ lang, toLowerCase (toggleLabel lang) = clickTarget None lang)
  ∧ (∀ dataLang current p,
       let t := clickTarget dataLang current in
       t = lit "es" ∨ t = lit "pt" →
       pathname p = clickHref t →
       langsInclude (forced p) = false →
       detectLang p = t)
  ∧ (∀ dataLang current p,
       clickTarget dataLang current = lit "en" →
       pathname p = clickHref (lit "en") →
       langsInclude (forced p) = false →
       detectLang p = if langsInclude (saved p) then default [] (saved p)
                      else lit "en").
Proof.
  split; [|split].
  - intros lang. unfold toggleLabel, clickTarget, orLit. cbn [truthy].
    repeat case_bool_decide; by vm_compute.
  - intros dataLang current p t Ht Hp Hf. clearbody t.
    assert (pathLang p = Some t) as Hpl.
    { apply pathLang_segment.
      - rewrite Hp. destruct Ht as [->| ->]; by vm_compute.
      - destruct Ht as [->| ->]; by vm_compute.
      - destruct Ht as [->| ->]; intros Hin; apply list_elem_of_In in Hin;
          vm_compute in Hin; intuition discriminate. }
    unfold detectLang. rewrite Hf, andb_false_r, Hpl. cbn [langsInclude default].
    rewrite bool_decide_eq_true_2; [reflexivity|].
    destruct Ht as [->| ->]; apply list_elem_of_In; vm_compute; auto.
  - intros dataLang current p _ Hp Hf.
    unfold detectLang. rewrite Hf, andb_false_r.
    assert (pathLang p = None) as -> by (unfold pathLang; rewrite Hp; by vm_compute).
    cbn [langsInclude]. by destruct (langsInclude (saved p)).
Qed.

Lemma language_switch_witness :
  detectLang {| forced := None; pathname := lit "/es/"; saved := Some (lit "en") |}
  = lit "es"
  ∧ detectLang {| forced := None; pathname := lit "/"; saved := Some (lit "es") |}
  = lit "es".
Proof.
  destruct language_switch as (_ & H2 & H3). split.
  - apply (H2 None (lit "en")
             {| forced := None; pathname := lit "/es/"; saved := Some (lit "en") |}).
    + left. by vm_compute.
    + by vm_compute.
    + reflexivity.
  - apply (H3 (Some (lit "en")) (lit "es")
             {| forced := None; pathname := lit "/"; saved := Some (lit "es") |}).
    + by vm_compute.
    + by vm_compute.
    + reflexivity.
Defined.

(** ** The matcher against the meaning of the patterns *)

Lemma accepts_none s : ¬ accepts RNone s.
Proof. intros H. inversion H. Qed.

Lemma accepts_nullable r : accepts r [] ↔ nullable r = true.
Proof.
  split.
  - intros H. remember [] as s eqn:Hs.
    induction H as [|p c Hp|r1 r2 s1 s2 H1 IH1 H2 IH2| | | |]; cbn [nullable];
      try done.
    + apply app_eq_nil in Hs as [-> ->].
      by rewrite IH1, IH2.
    + by rewrite IHaccepts.
    + rewrite IHaccepts by done. apply orb_true_r.
  - induction r as [| |p|r1 IH1 r2 IH2|r1 IH1 r2 IH2|r IH]; cbn [nullable];
      try done.
    + intros _. constructor.
    + intros H. apply andb_prop in H as [H1 H2].
      change (@nil N) with (@nil N ++ []). constructor; auto.
    + intros H. apply orb_prop in H as [H|H];
        [apply acc_alt_l | apply acc_alt_r]; auto.
    + intros _. constructor.
Qed.

Lemma accepts_cat r1 r2 s : accepts (cat r1 r2) s ↔ accepts (RCat r1 r2) s.
Proof.
  split.
  - destruct r1, r2; cbn [cat]; intros H;
      try (exfalso; by apply (accepts_none s)); try done;
      change s with ([] ++ s); constructor; first [done | constructor].
  - intros H. inversion H as [| |? ? s1 s2 H1 H2| | | |]; subst.
    destruct r1, r2; cbn [cat];
      try (exfalso; by eapply accepts_none); try (by constructor).
    all: by inversion H1; subst.
Qed.

Lemma accepts_alt r1 r2 s : accepts (alt r1 r2) s ↔ accepts (RAlt r1 r2) s.
Proof.
  split.
  - destruct r1, r2; cbn [alt]; intros H; try done;
      try (by apply acc_alt_l); try (by apply acc_alt_r).
  - intros H. inversion H; subst;
      destruct r1, r2; cbn [alt];
      try (exfalso; by eapply accepts_none); try done;
      try (by apply acc_alt_l); try (by apply acc_alt_r).
Qed.

Lemma accepts_deriv_sound r : ∀ c s, accepts (deriv c r) s → accepts r (c :: s).
Proof.
  induction r as [| |p|r1 IH1 r2 IH2|r1 IH1 r2 IH2|r IH]; intros c s;
    cbn [deriv].
  - intros H. by apply accepts_none in H.
  - intros H. by apply accepts_none in H.
  - destruct (p c) eqn:Hp; intros H; [|by apply accepts_none in H].
    inversion H; subst. by constructor.
  - intros H. apply accepts_alt in H. inversion H as [| | |? ? ? Hl|? ? ? Hr| |]; subst.
    + apply accepts_cat in Hl.
      inversion Hl as [| |? ? s1 s2 H1 H2| | | |]; subst.
      change (c :: s1 ++ s2) with ((c :: s1) ++ s2). constructor; auto.
    + destruct (nullable r1) eqn:Hn; [|by apply accepts_none in Hr].
      change (c :: s) with ([] ++ c :: s). constructor; [|auto].
      by apply accepts_nullable.
  - intros H. apply accepts_alt in H. inversion H; subst;
      [apply acc_alt_l | apply acc_alt_r]; auto.
  - intros H. apply accepts_cat in H.
    inversion H as [| |? ? s1 s2 H1 H2| | | |]; subst.
    change (c :: s1 ++ s2) with ((c :: s1) ++ s2). constructor; auto.
Qed.

Lemma accepts_deriv_complete r s' :
  accepts r s' → ∀ c s, s' = c :: s → accepts (deriv c r) s.
Proof.
  induction 1 as [|p c' Hp|r1 r2 s1 s2 H1 IH1 H2 IH2|r1 r2 s0 H IH|r1 r2 s0 H IH
                  |r|r s1 s2 H1 IH1 H2 IH2]; intros c s Heq; cbn [deriv].
  - done.
  - injection Heq as -> <-. rewrite Hp. constructor.
  - apply accepts_alt. destruct s1 as [|c1 s1].
    + cbn [app] in Heq. apply acc_alt_r.
      rewrite (proj1 (accepts_nullable r1) H1). by apply IH2.
    + cbn [app] in Heq. injection Heq as -> <-. apply acc_alt_l.
      apply accepts_cat. constructor; [by apply IH1 | done].
  - apply accepts_alt. apply acc_alt_l. by apply IH.
  - apply accepts_alt. apply acc_alt_r. by apply IH.
  - done.
  - destruct s1 as [|c1 s1].
    + cbn [app] in Heq. by apply IH2.
    + cbn [app] in Heq. injection Heq as -> <-.
      apply accepts_cat. constructor; [by apply IH1 | done].
Qed.

(** The matcher decides [accepts]. *)
Lemma matches_accepts s : ∀ r, matches r s = true ↔ accepts r s.
Proof.
  induction s as [|c s IH]; intros r; cbn [matches].
  - symmetry. apply accepts_nullable.
  - rewrite IH. split; [apply accepts_deriv_sound|].
    intros H. by eapply accepts_deriv_complete.
Qed.

Lemma accepts_cat_inv r1 r2 s :
  accepts (RCat r1 r2) s ↔ ∃ s1 s2, s = s1 ++ s2 ∧ accepts r1 s1 ∧ accepts r2 s2.
Proof.
  split.
  - intros H. inversion H; subst. eauto.
  - intros (s1 & s2 & -> & H1 & H2). by constructor.
Qed.

Lemma accepts_class p s : accepts (RClass p) s ↔ ∃ c, s = [c] ∧ p c = true.
Proof.
  split.
  - intros H. inversion H; subst. eauto.
  - intros (c & -> & Hp). by constructor.
Qed.

Lemma accepts_star_class p s :
  accepts (RStar (RClass p)) s ↔ Forall (λ c, p c = true) s.
Proof.
  split.
  - intros H. remember (RStar (RClass p)) as r eqn:Hr.
    induction H as [| | | | | |r s1 s2 H1 _ H2 IH2]; try done.
    injection Hr as ->. inversion H1; subst. constructor; auto.
  - induction 1 as [|c s Hc _ IH]; [constructor|].
    change (c :: s) with ([c] ++ s). constructor; [by constructor | done].
Qed.

Lemma accepts_plus_class p s :
  accepts (RPlus (RClass p)) s ↔ s ≠ [] ∧ Forall (λ c, p c = true) s.
Proof.
  unfold RPlus. rewrite accepts_cat_inv. split.
  - intros (s1 & s2 & -> & H1 & H2). apply accepts_class in H1 as (c & -> & Hp).
    apply accepts_star_class in H2. split; [done | by constructor].
  - intros [Hne Hall]. destruct s as [|c s]; [done|].
    apply Forall_cons in Hall as [Hc Hs]. exists [c], s.
    split; [done|]. split; [by constructor | by apply accepts_star_class].
Qed.

(** The strings the basic email pattern accepts *)
Lemma emailRegex_accepts (s : jsstring) :
  matches emailRegex s = true ↔
     ∃ a b c, s = a ++ 64%N :: b ++ 46%N :: c
              ∧ a ≠ [] ∧ b ≠ [] ∧ c ≠ []
              ∧ Forall (λ u, notSpaceAt u = true) (a ++ b ++ c).
Proof.
  rewrite matches_accepts. unfold emailRegex. cbn [RSeq]. split.
  - intros H.
    apply accepts_cat_inv in H as (a & s1 & -> & Ha & H).
    apply accepts_cat_inv in H as (at_ & s2 & -> & Hat & H).
    apply accepts_cat_inv in H as (b & s3 & -> & Hb & H).
    apply accepts_cat_inv in H as (dot & c & -> & Hdot & Hc).
    apply accepts_plus_class in Ha as [? ?], Hb as [? ?], Hc as [? ?].
    apply accepts_class in Hat as (x & -> & Hx), Hdot as (y & -> & Hy).
    unfold isChar in Hx, Hy. apply N.eqb_eq in Hx as ->, Hy as ->.
    exists a, b, c. repeat split; try done.
    rewrite !Forall_app. done.
  - intros (a & b & c & -> & Ha & Hb & Hc & Hall).
    rewrite !Forall_app in Hall. destruct Hall as (Fa & Fb & Fc).
    apply accepts_cat_inv. exists a, (64%N :: b ++ 46%N :: c).
    split; [done|]. split; [by apply accepts_plus_class|].
    apply accepts_cat_inv. exists [64%N], (b ++ 46%N :: c).
    split; [done|]. split; [by constructor|].
    apply accepts_cat_inv. exists b, (46%N :: c).
    split; [done|]. split; [by apply accepts_plus_class|].
    apply accepts_cat_inv. exists [46%N], c.
    split; [done|]. split; [by constructor | by apply accepts_plus_class].
Qed.

(** An accepted email has one [@] and no white space. *)
Lemma emailRegex_one_at (s : jsstring) :
  matches emailRegex s = true →
  countUnit 64 s = 1%nat ∧ Forall (λ u, isWhiteSpace u = false) s.
Proof.
  intros H. apply emailRegex_accepts in H as (a & b & c & -> & _ & _ & _ & Hall).
  rewrite !Forall_app in Hall. destruct Hall as (Fa & Fb & Fc).
  assert (∀ l, Forall (λ u, notSpaceAt u = true) l →
               countUnit 64 l = O ∧ Forall (λ u, isWhiteSpace u = false) l) as Hl.
  { induction 1 as [|u l Hu _ [IH1 IH2]]; [by split|].
    unfold notSpaceAt in Hu. apply andb_prop in Hu as [Hw Hat].
    apply negb_true_iff in Hw, Hat. apply N.eqb_neq in Hat.
    rewrite countUnit_cons, bool_decide_eq_false_2 by done.
    split; [by rewrite IH1 | by constructor]. }
  destruct (Hl a Fa) as [Ca Wa], (Hl b Fb) as [Cb Wb], (Hl c Fc) as [Cc Wc].
  split.
  - rewrite countUnit_app, countUnit_cons, countUnit_app, countUnit_cons.
    rewrite Ca, Cb, Cc. reflexivity.
  - rewrite Forall_app, Forall_cons, Forall_app, Forall_cons. done.
Qed.

(** X15. The basic email pattern accepts exactly the strings of the form
    [a@b.c] where [a], [b] and [c] are not empty and hold neither white
    space nor [@]. So an accepted email has exactly one [@] and no white
    space (no line break in particular). *)
Theorem emailRegex_shape (s : jsstring) :
  (matches emailRegex s = true ↔
     ∃ a b c, s = a ++ 64%N :: b ++ 46%N :: c
              ∧ a ≠ [] ∧ b ≠ [] ∧ c ≠ []
              ∧ Forall (λ u, notSpaceAt u = true) (a ++ b ++ c))
  ∧ (matches emailRegex s = true →
     countUnit 64 s = 1%nat ∧ Forall (λ u, isWhiteSpace u = false) s).
Proof. split; [apply emailRegex_accepts | apply emailRegex_one_at]. Qed.

Lemma emailRegex_shape_witness :
  countUnit 64 (lit "jane@example.com") = 1%nat.
Proof.
  destruct (emailRegex_shape (lit "jane@example.com")) as [_ H].
  destruct H as [H _]; [vm_compute; reflexivity | exact H].
Defined.

(** ** The envelope of the mail *)



(** ** The life of a block *)

Section Expiry.

Variable clock : nat → Z.
Hypothesis clock_mono : ∀ i j, (i ≤ j)%nat → clock i ≤ clock j.
Hypothesis clock_nonneg : ∀ n, 0 ≤ clock n.

Lemma init_tracked : tracked clock init.
Proof.
  split.
  - intros h Hin. cbn in Hin. by apply elem_of_nil in Hin.
  - intros ip u Hl. cbn in Hl. by rewrite lookup_empty in Hl.
Qed.

Lemma tracked_step w w' ip :
  tracked clock w →
  blocked w' = blocked w ∨ blocked w' = delete ip (blocked w) →
  badHits w' = badHits w →
  (tick w ≤ tick w')%nat →
  tracked clock w'.
Proof.
  intros [HJ HI] Hb Hh Ht. split.
  - intros h Hin. rewrite Hh in Hin.
    etrans; [apply HJ, Hin | apply clock_mono, Ht].
  - intros ip' u Hl.
    assert (blocked w !! ip' = Some u) as Hl'.
    { destruct Hb as [Hb|Hb]; rewrite Hb in Hl; [done|].
      by apply lookup_delete_Some in Hl as [_ ?]. }
    destruct (HI _ _ Hl') as (k & Hk & -> & Hev).
    exists k. split; [lia|]. split; [done|].
    intros h Hin. rewrite Hh in Hin. auto.
Qed.

Lemma markBad_tracked ip w :
  tracked clock w → blocked w !! ip = None →
  tracked clock (snd (markBad clock ip w)).
Proof.
  intros [HJ HI] Hnone. rewrite markBad_run. cbv zeta.
  set (now := clock (tick w)).
  set (kept := pruneAt BAD_WINDOW_MS now _).
  assert (∀ h, h ∈ kept → h ∈ badHits w ∨ h = {| hit_ip := ip; hit_time := now |})
    as Hkept.
  { intros h Hin. unfold kept, pruneAt in Hin.
    apply list_elem_of_filter in Hin as [_ Hin].
    apply elem_of_app in Hin as [?|Hin]; [by left|].
    right. by apply list_elem_of_singleton in Hin. }
  assert (∀ n h, h ∈ kept → (tick w ≤ n)%nat → hit_time h ≤ clock n) as Hpast.
  { intros n h Hin Hn. destruct (Hkept h Hin) as [H| ->].
    - etrans; [apply HJ, H | by apply clock_mono].
    - cbn. by apply clock_mono. }
  assert (∀ ip' u, ip ≠ ip' → blocked w !! ip' = Some u → ∀ n, (tick w ≤ n)%nat →
            ∃ k, (k < n)%nat ∧ u = clock k + BLOCK_MS
                 ∧ ∀ h, h ∈ kept → hit_ip h = ip' → hit_time h ≤ clock k) as Hold.
  { intros ip' u Hne Hl n Hn. destruct (HI _ _ Hl) as (k & Hk & -> & Hev).
    exists k. split; [lia|]. split; [done|].
    intros h Hin Hip. destruct (Hkept h Hin) as [H| ->]; [auto|].
    cbn in Hip. congruence. }
  case_bool_decide; cbn [snd]; split;
    cbn [badHits blocked tick set_blocked set_badHits set_tick].
  - intros h Hin. apply Hpast; [done|lia].
  - intros ip' u Hl. apply lookup_insert_Some in Hl as [[<- <-]|[Hne Hl]].
    + exists (S (tick w)). split; [lia|]. split; [done|].
      intros h Hin _. apply Hpast; [done|lia].
    + apply Hold; [done..|lia].
  - intros h Hin. apply Hpast; [done|lia].
  - intros ip' u Hl. apply Hold; [|done|lia]. intros ->. congruence.
Qed.

Lemma isBlocked_tracked ip w :
  tracked clock w →
  tracked clock (snd (isBlocked clock ip w))
  ∧ (fst (isBlocked clock ip w) = false →
     blocked (snd (isBlocked clock ip w)) !! ip = None).
Proof.
  intros Htr. pose proof Htr as [HJ HI]. rewrite isBlocked_run.
  destruct (blocked w !! ip) as [u|] eqn:Hl; [|by split].
  destruct (HI _ _ Hl) as (k & Hk & -> & Hev). pose proof (clock_nonneg k).
  rewrite bool_decide_eq_true_2 by (unfold BLOCK_MS; lia).
  case_bool_decide as Hlt.
  { split; [|done]. cbn [snd]. apply (tracked_step w _ ip); cbn; auto. }
  rewrite bool_decide_eq_true_2
    by (pose proof (clock_mono (tick w) (S (tick w))); lia).
  cbn [fst snd]. split.
  - apply (tracked_step w _ ip); cbn; auto.
  - intros _. cbn. apply lookup_delete_None. by left.
Qed.

Lemma handler_tracked x req w :
  tracked clock w → tracked clock (snd (handler clock x req w)).
Proof.
  intros Htr. destruct (reachesIpGates req) eqn:Hg; [|by rewrite handler_early].
  rewrite (handler_ipGates clock x req w Hg). cbv zeta.
  destruct (isBlocked_tracked (ipOf req) w Htr) as [Ht1 Hfree].
  destruct (isBlocked clock (ipOf req) w) as [blk w1]. cbn [fst snd] in *.
  destruct blk; [done|]. specialize (Hfree eq_refl).
  rewrite rateLimited_run. cbv zeta. case_bool_decide; cbn [snd].
  { apply (tracked_step w1 _ (ipOf req)); cbn; auto. }
  match goal with |- context [verifyTurnstile clock x ?i ?b ?w2] =>
    destruct (verifyTurnstile_abuse clock x i b w2)
      as (w0 & (Hb0 & Hh0 & Ht0) & Hrest) end.
  cbn [blocked badHits tick set_hits set_tick] in Hb0, Hh0, Ht0.
  assert (tracked clock w0) as Htr0
    by (apply (tracked_step w1 _ (ipOf req)); auto; lia).
  destruct Hrest as [(Hb & Hh & Ht)|(Hb & Hh & Ht)].
  - apply (tracked_step w0 _ (ipOf req)); auto.
  - apply (tracked_step (snd (markBad clock (ipOf req) w0)) _ (ipOf req)); auto.
    apply markBad_tracked; [done|]. by rewrite Hb0.
Qed.

Lemma serve_tracked evs w :
  tracked clock w → tracked clock (snd (serve clock evs w)).
Proof.
  revert w. induction evs as [|[x req] evs IH]; intros w Htr; [done|].
  cbn [serve]. pose proof (handler_tracked x req w Htr) as H1.
  destruct (handler clock x req w) as [r w1]. cbn [snd] in H1.
  specialize (IH w1 H1). destruct (serve clock evs w1) as [rs w2]. exact IH.
Qed.

(** Events that are out of the window are not counted. *)
Lemma countFor_stale ip T now hs :
  (∀ h, h ∈ hs → hit_ip h = ip → hit_time h ≤ T) →
  T + BAD_WINDOW_MS ≤ now →
  countFor ip (pruneAt BAD_WINDOW_MS now hs) = O.
Proof.
  intros Hev Hnow. unfold countFor, pruneAt.
  apply length_zero_iff_nil, filter_none.
  intros h Hin Hip. apply list_elem_of_filter in Hin as [Hfresh Hin].
  specialize (Hev h Hin Hip). lia.
Qed.

Lemma handler_expired x req w u :
  tracked clock w →
  reachesIpGates req = true →
  blocked w !! ipOf req = Some u →
  u ≤ clock (tick w) →
  blocked (snd (handler clock x req w)) !! ipOf req = None
  ∧ (badHits (snd (handler clock x req w)) = badHits w
     ∨ countFor (ipOf req) (badHits (snd (handler clock x req w))) = 1%nat).
Proof.
  intros [HJ HI] Hg Hl Hexp. destruct (HI _ _ Hl) as (k & Hk & -> & Hev).
  pose proof (clock_nonneg k).
  rewrite (handler_ipGates clock x req w Hg). cbv zeta.
  rewrite isBlocked_run, Hl.
  rewrite bool_decide_eq_true_2 by (unfold BLOCK_MS; lia).
  rewrite bool_decide_eq_false_2 by lia.
  rewrite bool_decide_eq_true_2
    by (pose proof (clock_mono (tick w) (S (tick w))); lia).
  rewrite rateLimited_run. cbv zeta. case_bool_decide; cbn [snd].
  { cbn. split; [apply lookup_delete_None; by left | by left]. }
  match goal with |- context [verifyTurnstile clock x ?i ?b ?w2] =>
    destruct (verifyTurnstile_abuse clock x i b w2)
      as (w0 & (Hb0 & Hh0 & Ht0) & Hrest) end.
  cbn [blocked badHits tick set_hits set_tick set_blocked] in Hb0, Hh0, Ht0.
  destruct Hrest as [(Hb & Hh & _)|(Hb & Hh & _)]; rewrite Hb, Hh.
  { rewrite Hb0, Hh0. split; [apply lookup_delete_None; by left | by left]. }
  rewrite markBad_run. cbv zeta.
  set (now := clock (tick w0)).
  assert (countFor (ipOf req)
            (pruneAt BAD_WINDOW_MS now
               (badHits w0 ++ [{| hit_ip := ipOf req; hit_time := now |}]))
          = 1%nat) as Hone.
  { assert (countFor (ipOf req) (pruneAt BAD_WINDOW_MS now (badHits w0)) = O)
      as Hz.
    { apply (countFor_stale (ipOf req) (clock k) now); [by rewrite Hh0|].
      pose proof (clock_mono (tick w) (tick w0)).
      unfold now, BLOCK_MS, BAD_WINDOW_MS in *. lia. }
    unfold countFor, pruneAt in *. rewrite !filter_app, length_app, Hz.
    rewrite (filter_cons_True _ _ []) by (cbn; unfold BAD_WINDOW_MS; lia).
    by rewrite (filter_cons_True _ _ _). }
  rewrite bool_decide_eq_false_2 by (rewrite Hone; unfold BAD_LIMIT; lia).
  cbn [snd blocked badHits set_badHits set_tick].
  split; [rewrite Hb0; apply lookup_delete_None; by left | by right].
Qed.

End Expiry.

(** X17. In every state reached by serving requests from the start, a
    block ends one hour after an earlier reading of the clock, and no bad
    event of the blocked IP is younger than that reading. Once the block
    has ended, the next request of the IP that reaches the block check
    evicts the entry and cannot set it again: when it adds a bad event, the
    events that led to the block are out of the ten-minute window and the
    IP is left with that single event. The clock is assumed to be
    non-negative and not to run backwards. *)
Theorem block_expires (clock : nat → Z)
    (clock_mono : ∀ i j, (i ≤ j)%nat → clock i ≤ clock j)
    (clock_nonneg : ∀ n, 0 ≤ clock n)
    (evs : list (Ext * Request)) :
  let w := snd (serve clock evs init) in
  (∀ ip u, blocked w !! ip = Some u →
     ∃ k, (k < tick w)%nat ∧ u = clock k + 60 * 60 * 1000
          ∧ ∀ h, h ∈ badHits w → hit_ip h = ip → hit_time h ≤ clock k)
  ∧ (∀ x req u,
       reachesIpGates req = true →
       blocked w !! ipOf req = Some u →
       u ≤ clock (tick w) →
       let w' := snd (handler clock x req w) in
       blocked w' !! ipOf req = None
       ∧ (badHits w' = badHits w ∨ countFor (ipOf req) (badHits w') = 1%nat)).
Proof.
  intros w.
  assert (tracked clock w) as Htr
    by (apply serve_tracked, init_tracked; assumption).
  split.
  - intros ip u Hl. destruct Htr as [_ HI]. exact (HI ip u Hl).
  - intros x req u Hg Hl Hexp. by apply (handler_expired clock) with u.
Qed.

Lemma block_expires_witness :
  blocked (snd (handler clockB extOk postNoToken
                  (snd (serve clockB (replicate 9 (extOk, postNoToken)) init))))
    !! ipA = None
  ∧ countFor ipA
      (badHits (snd (handler clockB extOk postNoToken
                  (snd (serve clockB (replicate 9 (extOk, postNoToken)) init)))))
    = 1%nat.
Proof.
  destruct (block_expires clockB clockB_mono clockB_nonneg
              (replicate 9 (extOk, postNoToken))) as [_ H].
  destruct (H extOk postNoToken (clockB 16 + 3600000)) as [Hb Hc].
  - vm_compute. reflexivity.
  - vm_compute. reflexivity.
  - vm_compute. discriminate.
  - split; [exact Hb|]. vm_compute. reflexivity.
Defined.

(** ** The name and message guards *)

Lemma accepts_any s : accepts (RStar RAny) s.
Proof. apply accepts_star_class. by apply Forall_true. Qed.

Lemma test_accepts r s :
  test r s = true ↔ ∃ a m b, s = a ++ m ++ b ∧ accepts r m.
Proof.
  unfold test. rewrite matches_accepts, accepts_cat_inv. split.
  - intros (a & s2 & -> & _ & H).
    apply accepts_cat_inv in H as (m & b & -> & Hm & _). eauto.
  - intros (a & m & b & -> & Hm). exists a, (m ++ b).
    split; [done|]. split; [apply accepts_any|].
    apply accepts_cat_inv. exists m, b. auto using accepts_any.
Qed.

(** A list that holds an element with [p] splits at the first one. *)
Lemma split_first (p : N → bool) (l : list N) x :
  x ∈ l → p x = true →
  ∃ l1 v l2, l = l1 ++ v :: l2 ∧ Forall (λ c, p c = false) l1 ∧ p v = true.
Proof.
  induction l as [|c l IH]; intros Hin Hp; [by apply elem_of_nil in Hin|].
  destruct (p c) eqn:Hc.
  - exists [], c, l. by repeat split.
  - apply elem_of_cons in Hin as [->|Hin]; [congruence|].
    destruct (IH Hin Hp) as (l1 & v & l2 & -> & Hl1 & Hv).
    exists (c :: l1), v, l2. repeat split; [by constructor | done].
Qed.

(** ... and at the last one. *)
Lemma split_last (p : N → bool) (l : list N) x :
  x ∈ l → p x = true →
  ∃ l1 v l2, l = l1 ++ v :: l2 ∧ Forall (λ c, p c = false) l2 ∧ p v = true.
Proof.
  intros Hin Hp. apply elem_of_reverse in Hin.
  destruct (split_first p (reverse l) x Hin Hp) as (l1 & v & l2 & Hl & Hl1 & Hv).
  exists (reverse l2), v, (reverse l1). split; [|split; [|done]].
  - rewrite <- (reverse_involutive l), Hl, reverse_app, reverse_cons.
    by rewrite <- app_assoc.
  - by apply Forall_reverse.
Qed.

(** X18. [hasTwoWords] holds exactly when the string has a white-space unit
    with a unit that is not white space somewhere before it and another
    somewhere after it; such a string has at least three units. Nothing is
    asked of the units that are not white space: they need not be letters. *)
Theorem hasTwoWords_shape (s : jsstring) :
  (hasTwoWords s = true ↔
     ∃ a x b y c z d, s = a ++ x :: b ++ y :: c ++ z :: d
                      ∧ isWhiteSpace x = false ∧ isWhiteSpace y = true
                      ∧ isWhiteSpace z = false)
  ∧ (hasTwoWords s = true → (3 ≤ length s)%nat).
Proof.
  assert (hasTwoWords s = true ↔
     ∃ a x b y c z d, s = a ++ x :: b ++ y :: c ++ z :: d
                      ∧ isWhiteSpace x = false ∧ isWhiteSpace y = true
                      ∧ isWhiteSpace z = false) as Hshape.
  { unfold hasTwoWords. rewrite test_accepts. unfold twoWordsRe. cbn [RSeq].
    split.
    - intros (a & m & d & -> & H).
      apply accepts_cat_inv in H as (w1 & m2 & -> & H1 & H).
      apply accepts_cat_inv in H as (sp & w2 & -> & H2 & H3).
      apply accepts_plus_class in H1 as [N1 F1], H2 as [N2 F2], H3 as [N3 F3].
      destruct w1 as [|x w1]; [done|]. destruct sp as [|y sp]; [done|].
      destruct w2 as [|z w2]; [done|].
      apply Forall_cons in F1 as [Hx _], F2 as [Hy _], F3 as [Hz _].
      apply negb_true_iff in Hx, Hz.
      exists a, x, w1, y, sp, z, (w2 ++ d). split; [|done].
      cbn [app]. rewrite <- ?app_assoc. cbn [app]. by rewrite <- ?app_assoc.
    - intros (a & x & b & y & c & z & d & -> & Hx & Hy & Hz).
      destruct (split_last (λ u, negb (isWhiteSpace u)) (a ++ x :: b) x)
        as (l1 & n & ws0 & Hl & Hws0 & Hn);
        [apply elem_of_app; right; left | by rewrite Hx |].
      destruct (split_first (λ u, negb (isWhiteSpace u)) (c ++ z :: d) z)
        as (ws & v & r & Hr & Hws & Hv);
        [apply elem_of_app; right; left | by rewrite Hz |].
      exists l1, ([n] ++ (ws0 ++ y :: ws) ++ [v]), r. split.
      { transitivity ((a ++ x :: b) ++ [y] ++ (c ++ z :: d));
          [by rewrite <- app_assoc|].
        rewrite Hl, Hr. rewrite <- ?app_assoc. cbn [app].
        by rewrite <- ?app_assoc. }
      apply accepts_cat_inv. exists [n], ((ws0 ++ y :: ws) ++ [v]).
      split; [done|]. split; [apply accepts_plus_class; by repeat constructor|].
      apply accepts_cat_inv. exists (ws0 ++ y :: ws), [v].
      split; [done|]. split; apply accepts_plus_class.
      + split; [by destruct ws0|]. apply Forall_app. split.
        * eapply Forall_impl; [exact Hws0|]. intros u Hu.
          by apply negb_false_iff in Hu.
        * constructor; [done|]. eapply Forall_impl; [exact Hws|]. intros u Hu.
          by apply negb_false_iff in Hu.
      + by repeat constructor. }
  split; [exact Hshape|].
  intros H. apply Hshape in H as (a & x & b & y & c & z & d & -> & _).
  rewrite length_app. cbn [length]. rewrite length_app. cbn [length].
  rewrite length_app. cbn [length]. lia.
Qed.

Lemma hasTwoWords_shape_witness : (3 ≤ length (lit "J D"))%nat.
Proof.
  destruct (hasTwoWords_shape (lit "J D")) as [_ H].
  apply H. vm_compute. reflexivity.
Defined.

(** X21. A text whose ASCII letters, taken together with everything else
    left out, hold six consonants in a row is always taken for gibberish:
    spaces, dots and digits between the consonants do not break the run,
    so the run may span two words. *)
Theorem looksGibberish_consonants (s a run b : jsstring) :
  filter (λ c, isLetter c) s = a ++ run ++ b →
  (6 ≤ length run)%nat →
  Forall (λ c, isConsonant c = true) run →
  looksGibberish s = true.
Proof.
  intros Ht Hlen Hall. unfold looksGibberish. cbv zeta. rewrite Ht.
  assert (test consonantRunRe (a ++ run ++ b) = true) as Hrun.
  { apply test_accepts. exists a, run, b. split; [done|].
    apply matches_accepts. by apply matches_atLeast. }
  destruct (a ++ run ++ b) as [|c0 t0]; [reflexivity|].
  destruct (_ || _); [reflexivity|]. by rewrite Hrun.
Qed.

Lemma looksGibberish_consonants_witness :
  looksGibberish (lit "Mr Schwarzkopf") = true.
Proof.
  apply (looksGibberish_consonants _ [] (lit "MrSchw") (lit "arzkopf")).
  - vm_compute. reflexivity.
  - vm_compute. lia.
  - vm_compute. repeat constructor.
Defined.

Lemma matchAt_none s : matchAt RNone s = None.
Proof. induction s as [|c s IH]; [done|]. cbn [matchAt deriv nullable]. by rewrite IH. Qed.

Lemma matchAt_eps s : matchAt REps s = Some O.
Proof. destruct s; [done|]. cbn [matchAt deriv nullable]. by rewrite matchAt_none. Qed.

(** One unit of a pattern that is a sequence of classes *)
Lemma matchAt_class p r s :
  r ≠ RNone → nullable (RCat (RClass p) r) = false →
  matchAt (RCat (RClass p) r) s =
    match s with
    | c :: s' => if p c then S <$> matchAt r s' else None
    | [] => None
    end.
Proof.
  intros Hr _. destruct s as [|c s']; [done|].
  cbn [matchAt deriv nullable andb]. destruct (p c).
  - replace (alt (cat REps r) RNone) with r by (by destruct r).
    by destruct (matchAt r s').
  - cbn [cat alt]. by rewrite matchAt_none.
Qed.

Lemma matchAt_last p s :
  matchAt (RClass p) s =
    match s with
    | c :: _ => if p c then Some 1%nat else None
    | [] => None
    end.
Proof.
  destruct s as [|c s']; [done|].
  cbn [matchAt deriv nullable]. destruct (p c).
  - by rewrite matchAt_eps.
  - by rewrite matchAt_none.
Qed.

Lemma matchAt_slashes s :
  matchAt (RSeq [RClass (isChar 58); RClass (isChar 47); RClass (isChar 47)]) s
  = if startsColonSlashes s then Some 3%nat else None.
Proof.
  cbn [RSeq]. rewrite matchAt_class by done.
  destruct s as [|a s]; [done|]. rewrite matchAt_class by done.
  destruct s as [|b s]; [by destruct (isChar 58 a)|]. rewrite matchAt_last.
  destruct s as [|c s]; [by destruct (isChar 58 a), (isChar 47 b)|].
  unfold isChar. cbn [startsColonSlashes].
  by destruct (a =? 58)%N, (b =? 47)%N, (c =? 47)%N.
Qed.

Lemma matchAt_two_slashes s :
  matchAt (RCat (RClass (isChar 47)) (RClass (isChar 47))) s
  = match s with
    | b :: c :: _ => if ((b =? 47) && (c =? 47))%N then Some 2%nat else None
    | _ => None
    end.
Proof.
  rewrite matchAt_class by done.
  destruct s as [|b s]; [done|]. rewrite matchAt_last.
  destruct s as [|c s]; [by destruct (isChar 47 b)|].
  unfold isChar. by destruct (b =? 47)%N, (c =? 47)%N.
Qed.

Lemma foldUnit_colon c : (foldUnit c =? 115)%N = true → (c =? 58)%N = false.
Proof.
  intros H. apply N.eqb_eq in H. apply N.eqb_neq. intros ->. done.
Qed.

Lemma matchAt_scheme_end s :
  matchAt (RSeq [ROpt (ci 115);
                 RClass (isChar 58); RClass (isChar 47); RClass (isChar 47)]) s
  = if startsColonSlashes s then Some 3%nat
    else match s with
         | s5 :: rest =>
             if (foldUnit s5 =? 115)%N && startsColonSlashes rest
             then Some 4%nat else None
         | [] => None
         end.
Proof.
  destruct s as [|c s]; [done|].
  pose proof (matchAt_slashes s) as Hs. cbn [RSeq] in Hs |- *.
  unfold ROpt, ci. cbn [matchAt deriv nullable andb orb].
  destruct (foldUnit c =? 115)%N eqn:Hc.
  - pose proof (foldUnit_colon c Hc) as Hn.
    change (isChar 58 c) with (c =? 58)%N. rewrite Hn.
    cbn [cat alt]. rewrite Hs.
    replace (startsColonSlashes (c :: s)) with false
      by (cbn [startsColonSlashes]; destruct s as [|? [|? ?]]; by rewrite ?Hn).
    cbn [andb]. by destruct (startsColonSlashes s).
  - change (isChar 58 c) with (c =? 58)%N. destruct (c =? 58)%N eqn:Hn.
    + cbn [cat alt]. rewrite matchAt_two_slashes. cbn [andb].
      destruct s as [|a [|b s]]; cbn [startsColonSlashes]; rewrite ?Hn; try done.
      cbn [andb]. by destruct ((a =? 47) && (b =? 47))%N.
    + cbn [cat alt]. rewrite matchAt_none. cbn [andb].
      replace (startsColonSlashes (c :: s)) with false
        by (cbn [startsColonSlashes]; destruct s as [|? [|? ?]]; by rewrite ?Hn).
      done.
Qed.

(** Where [urlRe] matches, and how far *)
Lemma matchAt_urlRe s :
  matchAt urlRe s =
    if startsUrl s
    then Some (if startsColonSlashes (drop 4 s) then 7 else 8)%nat
    else None.
Proof.
  pose proof matchAt_scheme_end as He. unfold urlRe. cbn [RSeq] in He |- *.
  unfold ci at 1 2 3 4.
  destruct s as [|c1 s]; [done|]. rewrite matchAt_class by done. cbv beta.
  destruct (foldUnit c1 =? 104)%N eqn:H1;
    [|by destruct s as [|? [|? [|? ?]]]; cbn [startsUrl]; rewrite ?H1].
  destruct s as [|c2 s]; [done|]. rewrite matchAt_class by done. cbv beta.
  destruct (foldUnit c2 =? 116)%N eqn:H2;
    [|by destruct s as [|? [|? ?]]; cbn [startsUrl]; rewrite ?H1, ?H2].
  destruct s as [|c3 s]; [done|]. rewrite matchAt_class by done. cbv beta.
  destruct (foldUnit c3 =? 116)%N eqn:H3;
    [|by destruct s as [|? ?]; cbn [startsUrl]; rewrite ?H1, ?H2, ?H3].
  destruct s as [|c4 s]; [done|]. rewrite matchAt_class by done. cbv beta.
  cbn [startsUrl drop]. rewrite H1, H2, H3.
  destruct (foldUnit c4 =? 112)%N; cbn [andb]; [|done].
  change (drop 0 s) with s. rewrite He. destruct (startsColonSlashes s); cbn [orb]; [done|].
  destruct s as [|c5 s]; [done|].
  by destruct ((foldUnit c5 =? 115)%N && startsColonSlashes s).
Qed.

Lemma startsColonSlashes_inv s :
  startsColonSlashes s = true → ∃ r, s = 58%N :: 47%N :: 47%N :: r.
Proof.
  destruct s as [|a [|b [|c r]]]; cbn [startsColonSlashes]; try done.
  intros H. apply andb_prop in H as [H Hc]. apply andb_prop in H as [Ha Hb].
  apply N.eqb_eq in Ha as ->, Hb as ->, Hc as ->. by exists r.
Qed.

Lemma startsUrl_head c s : foldUnit c ≠ 104%N → startsUrl (c :: s) = false.
Proof.
  intros H. apply N.eqb_neq in H.
  destruct s as [|? [|? [|? ?]]]; cbn [startsUrl]; by rewrite ?H.
Qed.

(** No match starts inside another one. *)
Lemma startsUrl_apart c s :
  startsUrl (c :: s) = true →
  ∀ i, (i < (if startsColonSlashes (drop 3 s) then 6 else 7))%nat →
       startsUrl (drop i s) = false.
Proof.
  destruct s as [|c2 [|c3 [|c4 rest]]]; cbn [startsUrl]; try done.
  intros H. apply andb_prop in H as [H Hrest].
  apply andb_prop in H as [H H4]. apply andb_prop in H as [H H3].
  apply andb_prop in H as [_ H2].
  apply N.eqb_eq in H2, H3, H4. change (drop 3 (c2 :: c3 :: c4 :: rest)) with rest.
  assert (∀ u r, (foldUnit u = 116 ∨ foldUnit u = 112 ∨ foldUnit u = 115
                  ∨ u = 58 ∨ u = 47)%N → startsUrl (u :: r) = false) as Hno.
  { intros u r Hu. apply startsUrl_head.
    destruct Hu as [->|[->|[->|[->| ->]]]]; done. }
  destruct (startsColonSlashes rest) eqn:Hc.
  - apply startsColonSlashes_inv in Hc as [r ->].
    intros i Hi. do 6 (destruct i as [|i]; [apply Hno; auto 6|]). lia.
  - cbn [orb] in Hrest. destruct rest as [|s5 rest']; [done|].
    apply andb_prop in Hrest as [H5 Hc']. apply N.eqb_eq in H5.
    apply startsColonSlashes_inv in Hc' as [r ->].
    intros i Hi. do 7 (destruct i as [|i]; [apply Hno; auto 6|]). lia.
Qed.

Lemma urlStarts_skip n : ∀ s,
  (∀ i, (i < n)%nat → startsUrl (drop i s) = false) →
  urlStarts s = urlStarts (drop n s).
Proof.
  induction n as [|n IH]; intros s H; [done|].
  destruct s as [|c s]; [done|].
  pose proof (H O ltac:(lia)) as H0. change (startsUrl (c :: s) = false) in H0.
  change (drop (S n) (c :: s)) with (drop n s). cbn [urlStarts]. rewrite H0.
  apply IH. intros i Hi. apply (H (S i)). lia.
Qed.

Lemma countMatches_urlRe s : ∀ skip,
  (∀ i, (i < skip)%nat → startsUrl (drop i s) = false) →
  countMatches urlRe skip s = urlStarts (drop skip s).
Proof.
  induction s as [|c s IH]; intros skip H; [by rewrite drop_nil|].
  destruct skip as [|k].
  - cbn [countMatches]. change (drop 0 (c :: s)) with (c :: s).
    rewrite matchAt_urlRe. cbn [urlStarts].
    destruct (startsUrl (c :: s)) eqn:Hu.
    + pose proof (startsUrl_apart c s Hu) as Hap.
      change (drop 4 (c :: s)) with (drop 3 s).
      destruct (startsColonSlashes (drop 3 s));
        rewrite (IH _ Hap), <- (urlStarts_skip _ s Hap); reflexivity.
    + by rewrite (IH O) by (intros; lia).
  - cbn [countMatches]. change (drop (S k) (c :: s)) with (drop k s).
    apply IH. intros i Hi. apply (H (S i)). lia.
Qed.

(** X19. [tooManyUrls] holds exactly when more than two positions of the
    string begin with [http://] or [https://], in any letter case: the
    matches the global pattern finds are all of these positions, since none
    of them lies inside the match of another. *)
Theorem tooManyUrls_counts (s : jsstring) :
  countMatches urlRe O s = urlStarts s
  ∧ tooManyUrls s = bool_decide (2 < urlStarts s)%nat.
Proof.
  assert (countMatches urlRe O s = urlStarts s) as H
    by (apply (countMatches_urlRe s O); intros; lia).
  split; [exact H|]. unfold tooManyUrls. by rewrite H.
Qed.

(** ** Translated attributes *)

Lemma split_plain c h : c ∉ h → split c h = [h].
Proof.
  induction h as [|a h IH]; intros Hn; [reflexivity|].
  apply not_elem_of_cons in Hn as [Hc Hh]. cbn [split].
  rewrite (proj2 (N.eqb_neq a c)) by done. by rewrite (IH Hh).
Qed.

Lemma split_sep c h rest :
  c ∉ h → split c (h ++ c :: rest) = h :: split c rest.
Proof.
  induction h as [|a h IH]; intros Hn.
  - cbn [app split]. by rewrite N.eqb_refl.
  - apply not_elem_of_cons in Hn as [Hc Hh]. cbn [app split].
    rewrite (proj2 (N.eqb_neq a c)) by done. by rewrite (IH Hh).
Qed.

(** The pieces hold no separator and nothing that the string does not. *)
Lemma split_pieces c s p :
  p ∈ split c s → (c ∉ p) ∧ ∀ u, u ∈ p → u ∈ s.
Proof.
  revert p. induction s as [|a s IH]; intros p Hin; cbn [split] in Hin.
  - apply list_elem_of_singleton in Hin as ->. split; [apply not_elem_of_nil|].
    intros u Hu. by apply elem_of_nil in Hu.
  - destruct (a =? c)%N eqn:Hac.
    + apply elem_of_cons in Hin as [->|Hin].
      * split; [apply not_elem_of_nil|]. intros u Hu. by apply elem_of_nil in Hu.
      * destruct (IH p Hin) as [Hc Hsub]. split; [done|].
        intros u Hu. right. auto.
    + apply N.eqb_neq in Hac. destruct (split c s) as [|q qs] eqn:Hq.
      * apply list_elem_of_singleton in Hin as ->. split.
        -- apply not_elem_of_cons. split; [done|apply not_elem_of_nil].
        -- intros u Hu. apply list_elem_of_singleton in Hu as ->. left.
      * apply elem_of_cons in Hin as [->|Hin].
        -- destruct (IH q) as [Hc Hsub]; [left|]. split.
           ++ apply not_elem_of_cons. by split.
           ++ intros u Hu. apply elem_of_cons in Hu as [->|Hu]; [left|].
              right. auto.
        -- destruct (IH p) as [Hc Hsub]; [by right|]. split; [done|].
           intros u Hu. right. auto.
Qed.

Lemma trim_sub s u : u ∈ trim s → u ∈ s.
Proof.
  intros Hu. unfold trim in Hu.
  destruct (trimEnd_split (trimStart s)) as (b & Hb & _).
  destruct (trimStart_split s) as (a & Ha & _).
  rewrite Ha, Hb. apply elem_of_app. right. apply elem_of_app. by left.
Qed.

Lemma trim_trim s : trim (trim s) = trim s.
Proof.
  unfold trim at 1. rewrite (trimStart_fixed (trim s)) by apply trim_head.
  apply trimEnd_fixed, trim_last.
Qed.

Lemma trim_fixed_ends s :
  (∀ c, head s = Some c → isWhiteSpace c = false) →
  (∀ c, last s = Some c → isWhiteSpace c = false) →
  trim s = s.
Proof.
  intros Hh Hl. unfold trim. rewrite (trimStart_fixed s Hh).
  by apply trimEnd_fixed.
Qed.

(** An [attr:key] entry is read back as it was written. *)
Lemma attrAndKey_entry a k :
  plainWord a → plainWord k →
  trim (a ++ 58%N :: k) = a ++ 58%N :: k
  ∧ attrAndKey (a ++ 58%N :: k) = (Some a, Some k).
Proof.
  intros (Ha & Hta & _ & Hca) (Hk & Htk & _ & Hck). split.
  - apply trim_fixed_ends.
    + intros c Hc. apply (trim_head a). rewrite Hta.
      destruct a; [done | exact Hc].
    + intros c Hc. apply (trim_last k). rewrite Htk.
      destruct k as [|n k']; [done|].
      by rewrite last_app_cons, last_cons_cons in Hc.
  - unfold attrAndKey. rewrite (split_sep 58 a k Hca), (split_plain 58 k Hck).
    cbn. by rewrite Hta, Htk.
Qed.

Lemma attrPairs_sep item rest :
  44%N ∉ item →
  attrPairs (item ++ 44%N :: 32%N :: rest)
  = filter (λ p, p ≠ []) [trim item] ++ attrPairs rest.
Proof.
  intros Hn. unfold attrPairs. rewrite (split_sep 44 item _ Hn).
  change (split 44 (32%N :: rest))
    with (match split 44 rest with
          | p :: ps => (32%N :: p) :: ps
          | [] => [[32%N]]
          end).
  assert (∃ p ps, split 44 rest = p :: ps) as (p & ps & ->)
    by (destruct rest as [|c r]; cbn [split]; [by eauto|];
        destruct (c =? 44)%N; [by eauto|]; destruct (split 44 r); by eauto).
  rewrite !fmap_cons. change (trim (32%N :: p)) with (trim p).
  rewrite (filter_cons _ (trim item) (_ :: _)), (filter_cons _ (trim item) []).
  rewrite filter_nil. by case_decide.
Qed.

(** X20. The value of [data-i18n-attr] is read as documented: a list of
    [attr:key] entries joined by a comma and a space, whose parts are not
    empty and hold no comma, no colon and no white space at their ends, is
    read back as exactly these pairs, in order. And whatever the value,
    every pair that is looked up has such parts: no attribute or key is
    empty, untrimmed, or holds a comma or a colon. *)
Theorem attr_list_round_trip :
  (∀ ps, Forall (λ p, plainWord p.1 ∧ plainWord p.2) ps →
         attrTargets (attrList ps) = ps)
  ∧ (∀ s a k, (a, k) ∈ attrTargets s → plainWord a ∧ plainWord k).
Proof.
  split.
  - induction 1 as [|[a k] rest [Ha Hk] Hrest IH]; [reflexivity|].
    cbn [fst snd] in Ha, Hk.
    destruct (attrAndKey_entry a k Ha Hk) as [Htrim Hentry].
    assert (a ++ 58%N :: k ≠ []) as Hne by (by destruct a).
    assert (44%N ∉ a ++ 58%N :: k) as Hcomma.
    { destruct Ha as (_ & _ & Hca & _), Hk as (_ & _ & Hck & _).
      intros Hin. apply elem_of_app in Hin as [?|Hin]; [done|].
      apply elem_of_cons in Hin as [?|?]; done. }
    assert (attrTargets (a ++ 58%N :: k) = [(a, k)]) as Hone.
    { unfold attrTargets, attrPairs. rewrite (split_plain 44 _ Hcomma).
      cbn [fmap list_fmap]. rewrite Htrim.
      rewrite (filter_cons_True _ _ []) by done. rewrite filter_nil.
      cbn [omap list_omap]. rewrite Hentry.
      destruct Ha as (Ha & _), Hk as (Hk & _).
      by destruct a, k. }
    destruct rest as [|p rest']; [exact Hone|].
    change (attrList ((a, k) :: p :: rest'))
      with (a ++ 58%N :: k ++ 44%N :: 32%N :: attrList (p :: rest')).
    unfold attrTargets in *.
    replace (a ++ 58%N :: k ++ 44%N :: 32%N :: attrList (p :: rest'))
      with ((a ++ 58%N :: k) ++ 44%N :: 32%N :: attrList (p :: rest'))
      by (by rewrite <- app_assoc).
    rewrite (attrPairs_sep _ _ Hcomma), Htrim.
    rewrite (filter_cons_True _ _ []) by done. rewrite filter_nil.
    cbn [app omap list_omap]. rewrite Hentry, IH.
    destruct Ha as (Ha & _), Hk as (Hk & _).
    by destruct a, k.
  - intros s a k Hin. unfold attrTargets in Hin.
    apply list_elem_of_omap in Hin as (pair & Hpair & Hsome).
    unfold attrPairs in Hpair. apply list_elem_of_filter in Hpair as [_ Hpair].
    apply list_elem_of_fmap in Hpair as (y & -> & Hy).
    apply split_pieces in Hy as [Hy _].
    unfold attrAndKey in Hsome. cbv zeta in Hsome.
    assert (∀ i o, (trim <$> split 58 (trim y)) !! i = o → truthy o = true →
                   plainWord (default [] o)) as Hpart.
    { intros i o Ho Ht. destruct o as [x|]; [|done]. cbn [default].
      rewrite list_lookup_fmap in Ho.
      destruct (split 58 (trim y) !! i) as [z|] eqn:Hz; [|done].
      injection Ho as <-. apply list_elem_of_lookup_2 in Hz.
      apply split_pieces in Hz as [Hz Hsub].
      split; [by destruct (trim z)|]. split; [apply trim_trim|].
      split; intros Hin; apply trim_sub in Hin; [|done].
      apply Hsub, trim_sub in Hin. done. }
    destruct (truthy ((trim <$> split 58 (trim y)) !! 0%nat)) eqn:H0; [|done].
    destruct (truthy ((trim <$> split 58 (trim y)) !! 1%nat)) eqn:H1; [|done].
    injection Hsome as <- <-. split; eapply Hpart; eauto.
Qed.

Lemma attr_list_round_trip_witness :
  attrTargets (lit "placeholder:key, title:key2")
  = [(lit "placeholder", lit "key"); (lit "title", lit "key2")].
Proof.
  destruct attr_list_round_trip as [H _].
  apply (H [(lit "placeholder", lit "key"); (lit "title", lit "key2")]).
  repeat constructor; cbn [fst snd]; try discriminate;
    try (vm_compute; reflexivity);
    intros Hin; apply list_elem_of_In in Hin; vm_compute in Hin;
    intuition discriminate.
Defined.
